(** * MarkovChain: a character-level Markov model over a PostgreSQL store

    Shallow embedding of [text_processor.py], [database.py] and the query
    side of [markov_model.py], with the properties of the specification
    proved (or refuted) against it.

    Conventions of the embedding:
    - a Python [str] is the list of its code points ([list N]); [len] is
      [length], a one-character string is a one-element list;
    - a Python [dict] (insertion ordered) is an association list in which
      the first binding of a key is the live one;
    - a Python [int] is a [Z]; the quotient [a / b] of two ints, a
      [float] in Python, is named by the exact rational in lowest terms:
      the statements say which quotient a value is and use its sign, and
      rest on no identity of exact arithmetic that rounding would break. *)

From Stdlib Require Import List Bool Arith NArith ZArith QArith Qreduction Lia.
Import ListNotations.

Local Open Scope nat_scope.

(** ** Strings *)

Definition char := N.
Definition str := list char.

Definition space : char := 32%N.

Fixpoint str_eqb (a b : str) : bool :=
  match a, b with
  | [], [] => true
  | x :: a', y :: b' => N.eqb x y && str_eqb a' b'
  | _, _ => false
  end.

(** [s[i:j]] for [0 <= i <= j]. *)
Definition slice (s : str) (i j : nat) : str := firstn (j - i) (skipn i s).

(** [s[-k:]] for [k >= 0]: Python reads [-0] as [0], so [s[-0:]] is the
    whole string. *)
Definition suffix_from_neg (k : nat) (s : str) : str :=
  match k with
  | O => s
  | _ => skipn (length s - k) s
  end.

(** The last [k] characters of [s] (all of [s] when it is shorter). *)
Definition last_chars (k : nat) (s : str) : str := skipn (length s - k) s.

Fixpoint dropwhile (p : char -> bool) (s : str) : str :=
  match s with
  | [] => []
  | c :: s' => if p c then dropwhile p s' else s
  end.

(** ** Dictionaries *)

Definition dict (V : Type) := list (str * V).

Section Dict.
Context {V : Type}.

Fixpoint get (k : str) (d : dict V) : option V :=
  match d with
  | [] => None
  | (k', v) :: d' => if str_eqb k k' then Some v else get k d'
  end.

(** [d[k] = v]: an existing key keeps its place, a new one goes last. *)
Fixpoint set (k : str) (v : V) (d : dict V) : dict V :=
  match d with
  | [] => [(k, v)]
  | (k', v') :: d' =>
      if str_eqb k k' then (k', v) :: d' else (k', v') :: set k v d'
  end.

(** [d[k]] of a [defaultdict] whose factory yields [dflt]. *)
Definition get_default (k : str) (dflt : V) (d : dict V) : V :=
  match get k d with
  | Some v => v
  | None => dflt
  end.

Definition keys (d : dict V) : list str := map fst d.
Definition values (d : dict V) : list V := map snd d.
End Dict.

(** [d[k] += 1] on a [defaultdict(int)]. *)
Definition incr (k : str) (d : dict Z) : dict Z :=
  set k (get_default k 0%Z d + 1)%Z d.

Definition sum_values (d : dict Z) : Z := fold_right Z.add 0%Z (values d).

(** ** text_processor.py *)

Module TextProcessor.

(** [ALLOWED_CHARS = set('абвгдеёжзийклмнопрстуфхцчшщъыьэюя ,.!?')],
    as code points in the order of the literal. *)
Definition ALLOWED_CHARS : list char :=
  [ 0x430; 0x431; 0x432; 0x433; 0x434; 0x435; 0x451; 0x436; 0x437; 0x438;
    0x439; 0x43a; 0x43b; 0x43c; 0x43d; 0x43e; 0x43f; 0x440; 0x441; 0x442;
    0x443; 0x444; 0x445; 0x446; 0x447; 0x448; 0x449; 0x44a; 0x44b; 0x44c;
    0x44d; 0x44e; 0x44f; 0x20; 0x2c; 0x2e; 0x21; 0x3f ]%N.

(** [c in TextProcessor.ALLOWED_CHARS] *)
Definition allowed (c : char) : bool := existsb (N.eqb c) ALLOWED_CHARS.

(** Unicode white space, the class behind both [\s] of [re] on [str]
    patterns and [str.strip()]. *)
Definition isspace (c : char) : bool :=
  ((9 <=? c) && (c <=? 13) || (28 <=? c) && (c <=? 32)
   || (c =? 0x85) || (c =? 0xa0) || (c =? 0x1680)
   || (0x2000 <=? c) && (c <=? 0x200a)
   || (c =? 0x2028) || (c =? 0x2029) || (c =? 0x202f) || (c =? 0x205f)
   || (c =? 0x3000))%N.

(** [re.sub(r'\s+', ' ', text)]: every maximal run of white space becomes
    one space. [in_run] tells that the previous character belonged to a
    run already replaced. *)
Fixpoint sub_runs (in_run : bool) (text : str) : str :=
  match text with
  | [] => []
  | c :: rest =>
      if isspace c
      then (if in_run then sub_runs true rest else space :: sub_runs true rest)
      else c :: sub_runs false rest
  end.

Definition re_sub_spaces (text : str) : str := sub_runs false text.

(** [text.strip()] *)
Definition strip (text : str) : str :=
  rev (dropwhile isspace (rev (dropwhile isspace text))).

Section Normalizer.
(** [str.lower] of the Python runtime (the Unicode case mapping). *)
Variable lower : str -> str.

Definition normalize_text (text : str) : str :=
  let text := lower text in
  let text := map (fun c => if allowed c then c else space) text in
  let text := strip (re_sub_spaces text) in
  text.
End Normalizer.

Definition count_overall_frequencies (text : str) : dict Z :=
  fold_left
    (fun frequencies c =>
       if allowed c then incr [c] frequencies else frequencies)
    text [].

(** One iteration of the loop of [count_markov_frequencies]. *)
Definition count_step (text : str) (n : nat)
    (frequencies : dict (dict Z)) (i : nat) : dict (dict Z) :=
  let context := slice text i (i + n) in
  let next_char := nth (i + n) text space in
  if forallb allowed context && allowed next_char
  then set context (incr [next_char] (get_default context [] frequencies))
           frequencies
  else frequencies.

Definition count_markov_frequencies (text : str) (n : nat) : dict (dict Z) :=
  fold_left (count_step text n) (seq 0 (length text - n)) [].

End TextProcessor.

(** A fragment of the Unicode lower-case mapping: Latin A-Z, Cyrillic А-Я
    and Ё; every other code point is left as it is. *)
Definition lower_char (c : char) : char :=
  (if (0x41 <=? c) && (c <=? 0x5a) then c + 32
   else if (0x410 <=? c) && (c <=? 0x42f) then c + 32
   else if c =? 0x401 then 0x451
   else c)%N.

Definition lower_basic (s : str) : str := map lower_char s.

(** Occurrences of [c] in [text] that are followed by a character: the
    start indices [i] in [[0, len(text) - n)] with [text[i:i+n] = c]. *)
Definition occurrences_followed (text : str) (n : nat) (c : str) : nat :=
  length (filter (fun i => str_eqb (slice text i (i + n)) c)
                 (seq 0 (length text - n))).

(** "мама" and "Привет, МИР!!" *)
Definition mama : str := [0x43c; 0x430; 0x43c; 0x430]%N.
Definition privet_mir : str :=
  [0x41f; 0x440; 0x438; 0x432; 0x435; 0x442; 0x2c; 0x20; 0x41c; 0x418; 0x420;
   0x21; 0x21]%N.


(** ** Effects: the store, the random source and the trace

    One connection to the database: [committed] is what the server has
    made durable, [working] what the connection's open transaction sees
    ([autocommit = False]). [faults] is the number of elementary storage
    actions that still succeed before the storage starts failing ([None]:
    it never fails). [rng] is the stream of values [random()] will return,
    [drawn] how many were consumed. [trace] records, oldest first, every
    statement sent to the store and every call of the sampler. *)

Record row := mkRow { r_context : str; r_symbol : str; r_frequency : Z }.

Record tables := mkTables {
  overall_frequencies : list (str * Z);
  markov : nat -> list row
}.

Inductive table_name := overall_tbl | markov_tbl (n : nat).

Inductive event :=
| SqlTruncate (t : table_name)
| SqlInsert (t : table_name) (rows : nat)
| SqlCopy (t : table_name) (rows : nat)
| SqlSelect (t : table_name) (context : option str)
| SqlCommit
| SqlRollback
| Sample (symbols : list str) (weights : list Q).

Record world := mkWorld {
  committed : tables;
  working : tables;
  faults : option nat;
  rng : nat -> Q;
  drawn : nat;
  trace : list event
}.

Inductive exn := StorageError | UndefinedTable | UniqueViolation | ValueError.

Inductive outcome (A : Type) :=
| Ok (a : A)
| Raise (e : exn).
Arguments Ok {A} a.
Arguments Raise {A} e.

Definition M (A : Type) : Type := world -> outcome A * world.

Definition ret {A} (a : A) : M A := fun w => (Ok a, w).

Definition bind {A B} (m : M A) (k : A -> M B) : M B :=
  fun w =>
    match m w with
    | (Ok a, w') => k a w'
    | (Raise e, w') => (Raise e, w')
    end.

Definition raise {A} (e : exn) : M A := fun w => (Raise e, w).

(** [try: body except Exception as e: handler(e)] *)
Definition try_except {A} (body : M A) (handler : exn -> M A) : M A :=
  fun w =>
    match body w with
    | (Ok a, w') => (Ok a, w')
    | (Raise e, w') => handler e w'
    end.

Declare Scope monad_scope.
Delimit Scope monad_scope with monad.
Notation "x <- m ;; k" := (bind m (fun x => k))
  (at level 61, m at next level, right associativity) : monad_scope.
Notation "' p <- m ;; k" := (bind m (fun x => let p := x in k))
  (at level 61, p pattern, m at next level, right associativity) : monad_scope.
Notation "m ;; k" := (bind m (fun _ => k))
  (at level 61, right associativity) : monad_scope.
Local Open Scope monad_scope.

(** [for x in l: body(x)] *)
Fixpoint for_each {A} (l : list A) (body : A -> M unit) : M unit :=
  match l with
  | [] => ret tt
  | x :: l' => body x ;; for_each l' body
  end.

(** The world after the events [evs] were recorded. *)
Definition log (evs : list event) (w : world) : world :=
  mkWorld (committed w) (working w) (faults w) (rng w) (drawn w)
          (trace w ++ evs).

Definition emit (e : event) : M unit := fun w => (Ok tt, log [e] w).

(** One elementary action of the storage engine. *)
Definition storage_action : M unit :=
  fun w =>
    match faults w with
    | None => (Ok tt, w)
    | Some O => (Raise StorageError, w)
    | Some (S k) =>
        (Ok tt, mkWorld (committed w) (working w) (Some k) (rng w)
                        (drawn w) (trace w))
    end.

Definition modify_working (f : tables -> tables) : M unit :=
  fun w => (Ok tt, mkWorld (committed w) (f (working w)) (faults w) (rng w)
                           (drawn w) (trace w)).

Definition read_working {A} (f : tables -> A) : M A :=
  fun w => (Ok (f (working w)), w).

Definition set_markov (n : nat) (rows : list row) (t : tables) : tables :=
  mkTables (overall_frequencies t)
           (fun m => if Nat.eqb m n then rows else markov t m).

(** [create_tables] makes [markov_1] .. [markov_13]; a statement that
    names another table fails. *)
Definition table_exists (n : nat) : bool := (1 <=? n) && (n <=? 13).

Definition require_table (n : nat) : M unit :=
  if table_exists n then ret tt else raise UndefinedTable.

(** [PRIMARY KEY (context, symbol)] *)
Definition same_key (r r' : row) : bool :=
  str_eqb (r_context r) (r_context r') && str_eqb (r_symbol r) (r_symbol r').

Definition truncate_markov (n : nat) : M unit :=
  emit (SqlTruncate (markov_tbl n)) ;;
  storage_action ;;
  require_table n ;;
  modify_working (set_markov n []).

Definition insert_row (n : nat) (r : row) : M unit :=
  storage_action ;;
  rows <- read_working (fun t => markov t n) ;;
  if existsb (same_key r) rows then raise UniqueViolation
  else modify_working (set_markov n (rows ++ [r])).

(** [execute_batch(cursor, "INSERT INTO markov_n ...", batch)] *)
Definition execute_batch (n : nat) (batch : list row) : M unit :=
  emit (SqlInsert (markov_tbl n) (length batch)) ;;
  require_table n ;;
  for_each batch (insert_row n).

(** [cursor.copy_expert("COPY markov_n ... FROM STDIN WITH CSV", f)]: the
    rows staged in the file are loaded one after the other. *)
Definition copy_expert (n : nat) (staged : list row) : M unit :=
  emit (SqlCopy (markov_tbl n) (length staged)) ;;
  require_table n ;;
  for_each staged (insert_row n).

Definition commit : M unit :=
  emit SqlCommit ;;
  storage_action ;;
  fun w => (Ok tt, mkWorld (working w) (working w) (faults w) (rng w)
                           (drawn w) (trace w)).

Definition rollback : M unit :=
  emit SqlRollback ;;
  fun w => (Ok tt, mkWorld (committed w) (committed w) (faults w) (rng w)
                           (drawn w) (trace w)).

(** The rows [(symbol, frequency)] of [markov_n] whose context is
    [context], in table order. *)
Definition rows_for (t : tables) (n : nat) (context : str) : list (str * Z) :=
  map (fun r => (r_symbol r, r_frequency r))
      (filter (fun r => str_eqb (r_context r) context) (markov t n)).

(** [SELECT symbol, frequency FROM markov_n WHERE context = %s] *)
Definition select_markov (n : nat) (context : str) : M (list (str * Z)) :=
  emit (SqlSelect (markov_tbl n) (Some context)) ;;
  storage_action ;;
  require_table n ;;
  read_working (fun t => rows_for t n context).

(** [SELECT symbol, frequency FROM overall_frequencies] *)
Definition select_overall : M (list (str * Z)) :=
  emit (SqlSelect overall_tbl None) ;;
  storage_action ;;
  read_working overall_frequencies.

(** ** database.py *)

Module MarkovDatabase.

(** The [(context, symbol, freq)] tuples of a table, in the order of the
    two nested [items()] loops. *)
Definition rows_of (frequencies : dict (dict Z)) : list row :=
  flat_map (fun '(context, symbols) =>
              map (fun '(symbol, freq) => mkRow context symbol freq) symbols)
           frequencies.

Definition batch_size : nat := 10000.

(** [range(0, stop, step)] *)
Definition range_step (stop step : nat) : list nat :=
  map (fun k => k * step) (seq 0 ((stop + step - 1) / step)).

Definition save_batches (n : nat) (step : nat) (data : list row) : M unit :=
  for_each (range_step (length data) step)
           (fun i => execute_batch n (firstn step (skipn i data)) ;; commit).

Definition save_markov_frequencies (n : nat) (frequencies : dict (dict Z))
  : M unit :=
  try_except
    (truncate_markov n ;;
     let data := rows_of frequencies in
     save_batches n batch_size data)
    (fun e => rollback ;; raise e).

(** The temporary CSV file only stages the rows for the COPY; writing
    and removing it are not storage actions and are taken to succeed. *)
Definition save_markov_frequencies_bulk (n : nat)
    (frequencies : dict (dict Z)) : M unit :=
  try_except
    (truncate_markov n ;;
     let staged := rows_of frequencies in
     copy_expert n staged ;;
     commit)
    (fun e => rollback ;; raise e).

(** [a / b] on ints: the quotient, which Python rounds to a [float]. *)
Definition true_div (a b : Z) : Q := Qred (inject_Z a / inject_Z b).

Definition total_of (rows : list (str * Z)) : Z :=
  fold_right Z.add 0%Z (map snd rows).

(** The loop filling [probabilities]. *)
Definition probabilities_of (rows : list (str * Z)) : dict Q :=
  let total := total_of rows in
  fold_left
    (fun probabilities '(symbol, freq) =>
       set symbol (if (0 <? total)%Z then true_div freq total else 0%Q)
           probabilities)
    rows [].

Definition get_overall_probabilities : M (dict Q) :=
  try_except
    (rows <- select_overall ;;
     ret (probabilities_of rows))
    (fun _ => ret []).

Definition get_markov_probabilities (n : nat) (context : str) : M (dict Q) :=
  try_except
    (rows <- select_markov n context ;;
     match rows with
     | [] => ret []
     | _ => ret (probabilities_of rows)
     end)
    (fun _ => ret []).

End MarkovDatabase.

(** ** random.choices

    [random.choices(population, weights=weights, k=1)[0]] of the standard
    library (CPython 3.9 and later): running totals of the weights, one
    uniform draw scaled by the grand total, and a bisection for the first
    running total above it. The library computes on floats, the model on
    rationals; the statements use only what the two share: the call, the
    [ValueError] on a total that is not positive, and a result taken from
    [population]. *)

Fixpoint accumulate_from (total : Q) (weights : list Q) : list Q :=
  match weights with
  | [] => []
  | w :: ws => (total + w)%Q :: accumulate_from (total + w)%Q ws
  end.

(** [itertools.accumulate(weights)] *)
Definition accumulate (weights : list Q) : list Q :=
  match weights with
  | [] => []
  | w :: ws => w :: accumulate_from w ws
  end.

(** [bisect.bisect_right(a, x, lo, hi)]; [hi - lo] rounds always suffice. *)
Fixpoint bisect_loop (rounds : nat) (a : list Q) (x : Q) (lo hi : nat) : nat :=
  match rounds with
  | O => lo
  | S rounds' =>
      if lo <? hi then
        let mid := (lo + hi) / 2 in
        if negb (Qle_bool (nth mid a 0%Q) x)
        then bisect_loop rounds' a x lo mid
        else bisect_loop rounds' a x (mid + 1) hi
      else lo
  end.

Definition bisect (a : list Q) (x : Q) (lo hi : nat) : nat :=
  bisect_loop (hi - lo) a x lo hi.

(** [random.random()] *)
Definition random : M Q :=
  fun w => (Ok (rng w (drawn w)),
            mkWorld (committed w) (working w) (faults w) (rng w)
                    (S (drawn w)) (trace w)).

Definition choices (population : list str) (weights : list Q) : M str :=
  emit (Sample population weights) ;;
  let n := length population in
  let cum_weights := accumulate weights in
  if negb (length cum_weights =? n) then raise ValueError
  else
    let total := last cum_weights 0%Q in
    if Qle_bool total 0 then raise ValueError
    else
      u <- random ;;
      ret (nth (bisect cum_weights (u * total)%Q 0 (n - 1)) population []).

(** ** markov_model.py *)

Module MarkovModel.
Import MarkovDatabase.

Definition get_probabilities (context : str) : M (dict Q) :=
  let n := length context in
  if (n =? 0) || (13 <? n) then ret []
  else get_markov_probabilities n context.

(** [not probs] *)
Definition is_empty {V} (d : dict V) : bool :=
  match d with
  | [] => true
  | _ => false
  end.

(** The loop
    [while not probs and len(current_context) > 1:
         current_context = current_context[1:]
         probs = self.get_probabilities(current_context)],
    returning the two variables it assigns. *)
Fixpoint back_off (current_context : str) (probs : dict Q)
  : M (str * dict Q) :=
  match current_context with
  | _ :: rest =>
      if is_empty probs && (1 <? length current_context)
      then probs' <- get_probabilities rest ;; back_off rest probs'
      else ret (current_context, probs)
  | [] => ret (current_context, probs)
  end.

(** The body of the [for] loop, on the variables [result] and
    [current_context]. *)
Definition generate_step (result current_context : str) : M (str * str) :=
  probs <- get_probabilities current_context ;;
  ' (current_context, probs) <- back_off current_context probs ;;
  probs <- (if is_empty probs then get_overall_probabilities
            else ret probs) ;;
  next_char <- (if negb (is_empty probs)
                then choices (keys probs) (values probs)
                else ret [space]) ;;
  ret (result ++ next_char,
       suffix_from_neg 13 (current_context ++ next_char)).

Fixpoint generate_loop (length : nat) (result current_context : str)
  : M str :=
  match length with
  | O => ret result
  | S length' =>
      ' (result, current_context) <- generate_step result current_context ;;
      generate_loop length' result current_context
  end.

(** The connection is taken as open ([self.db.conn] set). *)
Definition generate_text (seed : str) (length : nat) : M str :=
  let result := seed in
  let current_context :=
    suffix_from_neg (Nat.min (List.length seed) 13) seed in
  generate_loop length result current_context.

End MarkovModel.

(** ** Sample data *)

Definition empty_tables : tables := mkTables [] (fun _ => []).

(** A connected, empty and healthy store whose random source returns
    [u] at every draw. *)
Definition fresh_world (u : Q) : world :=
  mkWorld empty_tables empty_tables None (fun _ => u) 0 [].

Definition with_faults (k : nat) (w : world) : world :=
  mkWorld (committed w) (working w) (Some k) (rng w) (drawn w) (trace w).

(** The letters "а" and "м" as one-character strings. *)
Definition s_a : str := [0x430%N].
Definition s_m : str := [0x43c%N].

(** [{"а": {"м": 2}}] *)
Definition table_a_m2 : dict (dict Z) := [(s_a, [(s_m, 2%Z)])].

(** [{"а": {"м": 2, "а": 1}, "м": {"а": 1}}] *)
Definition table_three_rows : dict (dict Z) :=
  [(s_a, [(s_m, 2%Z); (s_a, 1%Z)]); (s_m, [(s_a, 1%Z)])].

(** The store after [table_a_m2] was saved as order 1. *)
Definition stored_world : world :=
  snd (MarkovDatabase.save_markov_frequencies 1 table_a_m2 (fresh_world 0)).

(** The context number [i] of three letters, counting in base 32 over
    "а" .. "я". *)
Definition letter (d : nat) : char := (0x430 + N.of_nat d)%N.

Definition three_letters (i : nat) : str :=
  [letter (i / 1024); letter ((i / 32) mod 32); letter (i mod 32)].

(** An order-3 table of [m] contexts, each seen once, before "а". *)
Definition table_of_contexts (m : nat) : dict (dict Z) :=
  map (fun i => (three_letters i, [(s_a, 1%Z)])) (seq 0 m).

(** ** Vocabulary of the statements *)

(** A Python [dict] of [dict]s: no key twice, at either level. *)
Definition well_formed (T : dict (dict Z)) : Prop :=
  NoDup (keys T) /\ Forall (fun symbols => NoDup (keys symbols)) (values T).

(** The counts of a context turned into shares of their sum, the way
    [get_markov_probabilities] computes them. *)
Definition relative_frequencies (counts : dict Z) : dict Q :=
  let total := sum_values counts in
  map (fun '(symbol, freq) =>
         (symbol,
          if (0 <? total)%Z then MarkovDatabase.true_div freq total else 0%Q))
      counts.

(** [probs] maps the same symbols as [counts], each to its count. *)
Definition same_numbers (probs : dict Q) (counts : dict Z) : Prop :=
  forall s,
    match get s probs, get s counts with
    | Some p, Some f => (p == inject_Z f)%Q
    | None, None => True
    | _, _ => False
    end.

(** The round trip as the specification words it: after [save n T] the
    query for [c] returns exactly [T[c]] (an empty mapping when [c] is not
    a key of [T]). *)
Definition returns_stored_counts
    (save : nat -> dict (dict Z) -> M unit)
    (n : nat) (T : dict (dict Z)) (w : world) (c : str) : Prop :=
  exists w1 probs w2,
    save n T w = (Ok tt, w1)
    /\ MarkovDatabase.get_markov_probabilities n c w1 = (Ok probs, w2)
    /\ same_numbers probs (get_default c [] T).

(** What a query of [markov_n] for [c] answers when the storage works. *)
Definition stored_probabilities (t : tables) (n : nat) (c : str) : dict Q :=
  match rows_for t n c with
  | [] => []
  | rows => MarkovDatabase.probabilities_of rows
  end.

(** The distribution stored for the context [c], in the table of its
    length. *)
Definition stored_for (t : tables) (c : str) : dict Q :=
  stored_probabilities t (length c) c.

Definition overall_probabilities (t : tables) : dict Q :=
  MarkovDatabase.probabilities_of (overall_frequencies t).

(** The statement by which [c] is looked up. *)
Definition query_event (c : str) : event :=
  SqlSelect (markov_tbl (length c)) (Some c).

(** The statements that look up [c], then [c] without its first
    character, and so on up to [c] without its first [k] characters. *)
Definition back_off_queries (c : str) (k : nat) : list event :=
  map (fun j => query_event (skipn j c)) (seq 0 (S k)).

(** One draw from [probs], appended to the output and to the context. *)
Definition sample_and_append (result kept : str) (probs : dict Q)
  : M (str * str) :=
  next_char <- choices (keys probs) (values probs) ;;
  ret (result ++ next_char, suffix_from_neg 13 (kept ++ next_char)).

(** The end of a generation step as the specification words it: sample
    from the distribution of the context kept; if there is none, from the
    overall distribution, asked for at that point; if that is empty too,
    emit a space without sampling. *)
Definition finish_step (result kept : str) (probs overall : dict Q)
  : M (str * str) :=
  match probs with
  | _ :: _ => sample_and_append result kept probs
  | [] =>
      emit (SqlSelect overall_tbl None) ;;
      match overall with
      | _ :: _ => sample_and_append result kept overall
      | [] => ret (result ++ [space], suffix_from_neg 13 (kept ++ [space]))
      end
  end.



(** The events a computation added to the trace of [w]. *)
Definition new_events {A} (m : M A) (w : world) : list event :=
  skipn (length (trace w)) (trace (snd (m w))).




Import TextProcessor.

(** A text made of Alphabet characters only, as normalized texts are. *)
Definition all_allowed (text : str) : Prop :=
  Forall (fun c => allowed c = true) text.

(** The indices of [l] at which the context [c] starts. *)
Definition starts_in (text : str) (n : nat) (c : str) (l : list nat) : nat :=
  length (filter (fun i => str_eqb (slice text i (i + n)) c) l).

(** No white space at the front. *)
Definition head_ok (s : str) : Prop :=
  match s with
  | [] => True
  | c :: _ => isspace c = false
  end.

(** No two white-space characters next to each other. *)
Fixpoint spaced (s : str) : bool :=
  match s with
  | [] => true
  | a :: t =>
      match t with
      | [] => true
      | b :: _ => negb (isspace a && isspace b) && spaced t
      end
  end.

(** The shape of every normalized text. *)
Definition normal_form (s : str) : Prop :=
  all_allowed s /\ spaced s = true /\ head_ok s /\ head_ok (rev s).

(** A letter or a punctuation mark: any Alphabet character but the
    space. *)
Definition is_letter (c : char) : bool := allowed c && negb (N.eqb c space).

(** The words of a text, as the specification words normalization: the
    maximal runs of letters and punctuation marks, in order, whatever
    separates them. [cur] is the word being read. *)
Fixpoint words_from (cur : str) (s : str) : list str :=
  match s with
  | [] =>
      match cur with
      | [] => []
      | _ => [cur]
      end
  | c :: s' =>
      if is_letter c then words_from (cur ++ [c]) s'
      else
        match cur with
        | [] => words_from [] s'
        | _ => cur :: words_from [] s'
        end
  end.

Definition words (s : str) : list str := words_from [] s.

(** The words [ws] with [sep] between any two of them. *)
Fixpoint join (sep : str) (ws : list str) : str :=
  match ws with
  | [] => []
  | w :: ws' =>
      match ws' with
      | [] => w
      | _ => w ++ sep ++ join sep ws'
      end
  end.

(** A computation that never touches what the server made durable. *)
Definition keeps_committed {A} (m : M A) : Prop :=
  forall w r w', m w = (r, w') -> committed w' = committed w.

(** The primary key of a row, and a table in which it is unique. *)
Definition key (r : row) : str * str := (r_context r, r_symbol r).

Definition unique_keys (rows : list row) : Prop := NoDup (map key rows).

(** ** database.py: the overall table *)

Definition set_overall (rows : list (str * Z)) (t : tables) : tables :=
  mkTables rows (markov t).

(** [TRUNCATE TABLE overall_frequencies RESTART IDENTITY] *)
Definition truncate_overall : M unit :=
  emit (SqlTruncate overall_tbl) ;;
  storage_action ;;
  modify_working (set_overall []).

(** One [INSERT INTO overall_frequencies]; [symbol] is the primary key. *)
Definition insert_overall_row (r : str * Z) : M unit :=
  storage_action ;;
  rows <- read_working overall_frequencies ;;
  if existsb (fun r' => str_eqb (fst r) (fst r')) rows
  then raise UniqueViolation
  else modify_working (set_overall (rows ++ [r])).

Definition execute_batch_overall (data : list (str * Z)) : M unit :=
  emit (SqlInsert overall_tbl (length data)) ;;
  for_each data insert_overall_row.

Module OverallTable.

Definition save_overall_frequencies (frequencies : dict Z) : M unit :=
  try_except
    (truncate_overall ;;
     let data := map (fun '(symbol, freq) => (symbol, freq)) frequencies in
     execute_batch_overall data ;;
     commit)
    (fun e => rollback ;; raise e).

End OverallTable.

(** ** markov_model.py: training

    [train_from_file] from the point where the text has been read. The
    connection is taken as open and the tables as created; the closing
    statistics report, which only reads the store, is left out. *)

Module Training.

Definition train_from_text (lower : str -> str) (text : str)
    (max_order : nat) (use_bulk_insert : bool) : M unit :=
  let normalized_text := normalize_text lower text in
  let overall_freq := count_overall_frequencies normalized_text in
  OverallTable.save_overall_frequencies overall_freq ;;
  for_each (seq 1 max_order)
    (fun n =>
       let markov_freq := count_markov_frequencies normalized_text n in
       if use_bulk_insert && (n <=? 5)
       then MarkovDatabase.save_markov_frequencies_bulk n markov_freq
       else MarkovDatabase.save_markov_frequencies n markov_freq).

End Training.

(** ** Vocabulary of the further properties *)

(** How many times the character [c] occurs in [text]. *)
Definition occurrences (c : char) (text : str) : nat :=
  length (filter (N.eqb c) text).

(** The start indices [i] in [[0, len(text) - n)] at which the context
    [c] is followed by the one-character string [s], context and follower
    being made of Alphabet characters. *)
Definition pair_occurrences (text : str) (n : nat) (c s : str) : nat :=
  length
    (filter (fun i =>
               str_eqb (slice text i (i + n)) c
               && str_eqb [nth (i + n) text space] s
               && (forallb allowed (slice text i (i + n))
                   && allowed (nth (i + n) text space)))
            (seq 0 (length text - n))).

(** The count stored for the pair [(c, s)], 0 when there is none. *)
Definition count_of (d : dict (dict Z)) (c s : str) : Z :=
  get_default s 0%Z (get_default c [] d).

(** The sum of all the counts of a table. *)
Definition total_count (d : dict (dict Z)) : Z :=
  fold_right Z.add 0%Z (map (fun p => sum_values (snd p)) d).

(** One Alphabet character, as a string. *)
Definition is_symbol (k : str) : Prop :=
  exists c, k = [c] /\ allowed c = true.

(** The invariant of an order-[n] table: contexts are [n] Alphabet
    characters, symbols single Alphabet characters, counts positive. *)
Definition order_table (n : nat) (d : dict (dict Z)) : Prop :=
  Forall (fun p =>
            length (fst p) = n
            /\ all_allowed (fst p)
            /\ Forall is_symbol (keys (snd p))
            /\ Forall (fun v => (0 < v)%Z) (values (snd p)))
         d.

(** The Alphabet characters of [s] other than the space, in order. *)
Definition letters (s : str) : str :=
  filter (fun c => allowed c && negb (isspace c)) s.

(** [t'] differs from [t] in the order-[n] table at most. *)
Definition same_elsewhere (n : nat) (t t' : tables) : Prop :=
  overall_frequencies t' = overall_frequencies t
  /\ forall m, m <> n -> markov t' m = markov t m.

(** [J] holds after [m] whenever it held before, whatever the outcome. *)
Definition invariant {A} (J : world -> Prop) (m : M A) : Prop :=
  forall w r w', J w -> m w = (r, w') -> J w'.


(** [c] ends [s]. *)
Definition is_suffix (c s : str) : Prop := exists pre, s = pre ++ c.


(** The body of the training loop for the order [n]. *)
Definition save_order (normalized_text : str) (use_bulk_insert : bool)
    (n : nat) : M unit :=
  let markov_freq := count_markov_frequencies normalized_text n in
  if use_bulk_insert && (n <=? 5)
  then MarkovDatabase.save_markov_frequencies_bulk n markov_freq
  else MarkovDatabase.save_markov_frequencies n markov_freq.

(** The overall table and the order tables below [a] hold the counts
    of [normalized_text], and the storage works. *)
Definition loaded_below (normalized_text : str) (a : nat) (w : world)
  : Prop :=
  faults w = None
  /\ overall_frequencies (working w)
     = count_overall_frequencies normalized_text
  /\ forall n, 1 <= n < a ->
       markov (working w) n
       = MarkovDatabase.rows_of (count_markov_frequencies normalized_text n).

(** What the loop keeps true of every inner dictionary. *)
Definition symbols_ok (symbols : dict Z) : Prop :=
  NoDup (keys symbols)
  /\ Forall is_symbol (keys symbols)
  /\ Forall (fun v => (0 < v)%Z) (values symbols).

(** What the loop keeps true of the whole table. *)
Definition table_ok (n : nat) (d : dict (dict Z)) : Prop :=
  NoDup (keys d)
  /\ Forall (fun p => length (fst p) = n /\ all_allowed (fst p)
                      /\ symbols_ok (snd p)) d.

(** A property of the durable and of the visible content. *)
Definition on_tables (P : tables -> tables -> Prop) (w : world) : Prop :=
  P (committed w) (working w).

(** What the batched strategy may have made durable in table [n]:
    nothing new, or the first [k] whole batches of [data]. *)
Definition whole_batches (n step : nat) (data : list row)
    (c0 c : tables) : Prop :=
  c = c0 \/ exists k, 0 < k /\ markov c n = firstn (k * step) data.








(** * Properties *)

(** ** Strings and dictionaries *)

Lemma str_eqb_eq (a b : str) : str_eqb a b = true <-> a = b.
Proof.
  revert b; induction a as [|x a IH]; intros [|y b]; simpl;
    try (split; [discriminate | discriminate]); try tauto.
  rewrite andb_true_iff, N.eqb_eq, IH.
  split; [intros [-> ->]; reflexivity | intros H; inversion H; auto].
Qed.

Lemma str_eqb_refl (a : str) : str_eqb a a = true.
Proof. apply str_eqb_eq; reflexivity. Qed.

Lemma str_eqb_neq (a b : str) : str_eqb a b = false <-> a <> b.
Proof.
  rewrite <- str_eqb_eq. destruct (str_eqb a b); split; congruence.
Qed.

Lemma str_eqb_sym (a b : str) : str_eqb a b = str_eqb b a.
Proof.
  destruct (str_eqb a b) eqn:E; symmetry.
  - apply str_eqb_eq. apply str_eqb_eq in E. congruence.
  - apply str_eqb_neq. apply str_eqb_neq in E. congruence.
Qed.

Section DictFacts.
Context {V : Type}.

Lemma get_set_same (k : str) (v : V) (d : dict V) :
  get k (set k v d) = Some v.
Proof.
  induction d as [|[k' v'] d IH]; simpl.
  - now rewrite str_eqb_refl.
  - destruct (str_eqb k k') eqn:E; simpl; rewrite E; auto.
Qed.

Lemma get_set_other (k k' : str) (v : V) (d : dict V) :
  k <> k' -> get k' (set k v d) = get k' d.
Proof.
  intros Hne. induction d as [|[k0 v0] d IH]; simpl.
  - assert (str_eqb k' k = false) as -> by (apply str_eqb_neq; congruence).
    reflexivity.
  - destruct (str_eqb k k0) eqn:E; simpl.
    + apply str_eqb_eq in E; subst k0.
      assert (str_eqb k' k = false) as -> by (apply str_eqb_neq; congruence).
      reflexivity.
    + now rewrite IH.
Qed.

Lemma get_default_set_same (k : str) (v dflt : V) (d : dict V) :
  get_default k dflt (set k v d) = v.
Proof. unfold get_default. now rewrite get_set_same. Qed.

Lemma get_default_set_other (k k' : str) (v dflt : V) (d : dict V) :
  k <> k' -> get_default k' dflt (set k v d) = get_default k' dflt d.
Proof. intros H. unfold get_default. now rewrite get_set_other. Qed.
End DictFacts.

Lemma sum_values_set (k : str) (v : Z) (d : dict Z) :
  sum_values (set k v d) = (sum_values d - get_default k 0 d + v)%Z.
Proof.
  unfold sum_values, values, get_default.
  induction d as [|[k' v'] d IH]; simpl.
  - lia.
  - destruct (str_eqb k k') eqn:E; simpl.
    + lia.
    + rewrite IH. lia.
Qed.

Lemma sum_values_incr (k : str) (d : dict Z) :
  sum_values (incr k d) = (sum_values d + 1)%Z.
Proof. unfold incr. rewrite sum_values_set. lia. Qed.

(** ** Counting *)

Lemma count_overall_fold (text : str) (acc : dict Z) :
  all_allowed text ->
  sum_values
    (fold_left (fun frequencies c =>
                  if allowed c then incr [c] frequencies else frequencies)
               text acc)
  = (sum_values acc + Z.of_nat (length text))%Z.
Proof.
  intros H. revert acc.
  induction H as [|c text Hc _ IH]; intros acc; simpl fold_left.
  - simpl. lia.
  - rewrite Hc, IH, sum_values_incr. simpl length. lia.
Qed.

(** C6. On a text made of Alphabet characters only (every normalized text
    is one), the counts returned by [count_overall_frequencies] add up to
    the length of the text. *)
Theorem count_overall_frequencies_total (text : str) :
  all_allowed text ->
  sum_values (count_overall_frequencies text) = Z.of_nat (length text).
Proof.
  intros H. unfold count_overall_frequencies.
  rewrite count_overall_fold by assumption. reflexivity.
Qed.

Lemma count_overall_frequencies_total_witness :
  all_allowed mama
  /\ sum_values (count_overall_frequencies mama) = Z.of_nat (length mama).
Proof.
  assert (H : all_allowed mama) by (repeat constructor).
  split; [exact H | exact (count_overall_frequencies_total mama H)].
Defined.

Lemma In_firstn {A} (x : A) (n : nat) (l : list A) :
  In x (firstn n l) -> In x l.
Proof.
  intros H. rewrite <- (firstn_skipn n l). apply in_or_app; now left.
Qed.

Lemma In_skipn {A} (x : A) (n : nat) (l : list A) :
  In x (skipn n l) -> In x l.
Proof.
  intros H. rewrite <- (firstn_skipn n l). apply in_or_app; now right.
Qed.

Lemma slice_allowed (text : str) (i j : nat) :
  all_allowed text -> forallb allowed (slice text i j) = true.
Proof.
  intros H. apply forallb_forall. intros c Hc.
  unfold all_allowed in H. rewrite Forall_forall in H. apply H.
  unfold slice in Hc. now apply In_firstn, In_skipn in Hc.
Qed.

Lemma nth_allowed (text : str) (k : nat) :
  all_allowed text -> k < length text -> allowed (nth k text space) = true.
Proof.
  intros H Hk. unfold all_allowed in H. rewrite Forall_forall in H.
  apply H. now apply nth_In.
Qed.

Lemma count_markov_fold (text : str) (n : nat) (l : list nat) :
  all_allowed text ->
  Forall (fun i => i + n < length text) l ->
  forall (frequencies : dict (dict Z)) (c : str),
    sum_values (get_default c [] (fold_left (count_step text n) l frequencies))
    = (sum_values (get_default c [] frequencies)
       + Z.of_nat (starts_in text n c l))%Z.
Proof.
  intros Hall Hl.
  induction Hl as [|i l Hi _ IH]; intros frequencies c; simpl fold_left.
  - unfold starts_in; simpl. lia.
  - rewrite IH. unfold starts_in at 2. simpl filter.
    unfold count_step.
    rewrite slice_allowed by assumption.
    rewrite nth_allowed by assumption. simpl andb. cbv iota.
    destruct (str_eqb (slice text i (i + n)) c) eqn:E.
    + apply str_eqb_eq in E. subst c.
      rewrite get_default_set_same, sum_values_incr.
      simpl length. fold (starts_in text n (slice text i (i + n)) l). lia.
    + apply str_eqb_neq in E.
      rewrite get_default_set_other by assumption.
      fold (starts_in text n c l). lia.
Qed.

Lemma seq_below (a b : nat) : Forall (fun i => a <= i < a + b) (seq a b).
Proof.
  apply Forall_forall. intros i Hi. apply in_seq in Hi. lia.
Qed.

(** C5. On a text made of Alphabet characters only, for every order [n]
    (so for 1..13) and every context [c] present in the table returned by
    [count_markov_frequencies text n], the counts stored for [c] add up
    to the number of start indices [i] in [[0, len(text) - n)] at which
    [c] occurs, that is the occurrences of [c] followed by a character. *)
Theorem count_markov_frequencies_total
    (text : str) (n : nat) (c : str) (symbols : dict Z) :
  all_allowed text ->
  get c (count_markov_frequencies text n) = Some symbols ->
  sum_values symbols = Z.of_nat (occurrences_followed text n c).
Proof.
  intros Hall Hget.
  assert (Hl : Forall (fun i => i + n < length text)
                      (seq 0 (length text - n))).
  { eapply Forall_impl; [|apply seq_below]. simpl. intros i Hi. lia. }
  pose proof (count_markov_fold text n _ Hall Hl [] c) as H.
  unfold count_markov_frequencies in Hget.
  unfold get_default in H.
  change (@get (list (str * Z))) with (@get (dict Z)) in H.
  rewrite Hget in H.
  rewrite H. unfold occurrences_followed, starts_in. reflexivity.
Qed.

Lemma count_markov_frequencies_total_witness :
  all_allowed mama
  /\ get s_m (count_markov_frequencies mama 1) = Some [(s_a, 2%Z)]
  /\ sum_values [(s_a, 2%Z)] = Z.of_nat (occurrences_followed mama 1 s_m).
Proof.
  assert (H : all_allowed mama) by (repeat constructor).
  split; [exact H | split; [reflexivity |]].
  exact (count_markov_frequencies_total mama 1 s_m [(s_a, 2%Z)] H eq_refl).
Defined.

(** ** Normalization *)

Lemma allowed_space : allowed space = true.
Proof. reflexivity. Qed.

(** Among the Alphabet characters the space is the only white space. *)
Lemma allowed_isspace (c : char) :
  allowed c = true -> isspace c = true -> c = space.
Proof.
  intros Ha Hs.
  assert (H : forallb (fun x => implb (isspace x) (N.eqb x space))
                      ALLOWED_CHARS = true) by reflexivity.
  rewrite forallb_forall in H.
  unfold allowed in Ha. apply existsb_exists in Ha.
  destruct Ha as [x [Hin Hx]]. apply N.eqb_eq in Hx. subst x.
  specialize (H c Hin). rewrite Hs in H. simpl in H. now apply N.eqb_eq.
Qed.

Lemma isspace_space : isspace space = true.
Proof. reflexivity. Qed.

Lemma spaced_cons (a : char) (s : str) :
  spaced (a :: s) = true ->
  spaced s = true /\ (isspace a = true -> head_ok s).
Proof.
  destruct s as [|b s]; simpl.
  - auto.
  - rewrite andb_true_iff, negb_true_iff, andb_false_iff.
    intros [[H|H] Hs]; split; auto; intros Ha; congruence.
Qed.

Lemma spaced_cons_intro (a : char) (s : str) :
  spaced s = true -> (isspace a = true -> head_ok s) -> spaced (a :: s) = true.
Proof.
  destruct s as [|b s]; intros Hs Hh.
  - reflexivity.
  - change (negb (isspace a && isspace b) && spaced (b :: s) = true).
    rewrite Hs, andb_true_r, negb_true_iff.
    destruct (isspace a) eqn:Ea; [|reflexivity].
    simpl in Hh. now rewrite Hh.
Qed.

Lemma spaced_app (s1 s2 : str) :
  spaced (s1 ++ s2) = true -> spaced s1 = true /\ spaced s2 = true.
Proof.
  induction s1 as [|a s1 IH]; intros H.
  - auto.
  - rewrite <- app_comm_cons in H. apply spaced_cons in H.
    destruct H as [H Hh]. destruct (IH H) as [H1 H2]. split; [|exact H2].
    apply spaced_cons_intro; [exact H1|].
    intros Ha. specialize (Hh Ha). destruct s1; simpl in *; auto.
Qed.

Lemma spaced_no_pair (s1 s2 : str) (a b : char) :
  spaced (s1 ++ a :: b :: s2) = true -> isspace a && isspace b = false.
Proof.
  intros H. apply spaced_app in H. destruct H as [_ H].
  simpl in H. rewrite andb_true_iff, negb_true_iff in H. tauto.
Qed.

Lemma dropwhile_split (p : char -> bool) (s : str) :
  exists pre, s = pre ++ dropwhile p s.
Proof.
  induction s as [|c s [pre IH]]; simpl.
  - now exists [].
  - destruct (p c).
    + exists (c :: pre). simpl. now rewrite <- IH.
    + now exists [].
Qed.

Lemma dropwhile_head_ok (s : str) : head_ok (dropwhile isspace s).
Proof.
  induction s as [|c s IH]; simpl; [exact I|].
  destruct (isspace c) eqn:E; [exact IH | exact E].
Qed.

Lemma dropwhile_id (s : str) : head_ok s -> dropwhile isspace s = s.
Proof.
  destruct s as [|c s]; simpl; [reflexivity|]. now intros ->.
Qed.

Lemma head_ok_prefix (s1 s2 : str) : head_ok (s1 ++ s2) -> head_ok s1.
Proof. destruct s1; simpl; auto. Qed.

(** What [strip] leaves: a slice of its argument with no white space at
    either end. *)
Lemma strip_facts (s : str) :
  head_ok (strip s) /\ head_ok (rev (strip s))
  /\ exists pre post, s = pre ++ strip s ++ post.
Proof.
  unfold strip.
  set (y := dropwhile isspace s).
  set (z := dropwhile isspace (rev y)).
  destruct (dropwhile_split isspace s) as [pre Hpre]. fold y in Hpre.
  destruct (dropwhile_split isspace (rev y)) as [pre' Hpre']. fold z in Hpre'.
  assert (Hy : y = rev z ++ rev pre').
  { rewrite <- rev_app_distr, <- Hpre'. now rewrite rev_involutive. }
  split; [|split].
  - apply head_ok_prefix with (s2 := rev pre'). rewrite <- Hy.
    apply dropwhile_head_ok.
  - rewrite rev_involutive. apply dropwhile_head_ok.
  - exists pre, (rev pre'). now rewrite <- Hy.
Qed.

Lemma sub_runs_allowed (text : str) (in_run : bool) :
  all_allowed text -> all_allowed (sub_runs in_run text).
Proof.
  intros H. revert in_run.
  induction H as [|c text Hc _ IH]; intros in_run; simpl.
  - constructor.
  - destruct (isspace c).
    + destruct in_run; [apply IH|]. constructor; [reflexivity | apply IH].
    + constructor; [exact Hc | apply IH].
Qed.

Lemma sub_runs_spaced (text : str) (in_run : bool) :
  spaced (sub_runs in_run text) = true
  /\ (in_run = true -> head_ok (sub_runs in_run text)).
Proof.
  revert in_run. induction text as [|c text IH]; intros in_run; simpl.
  - auto.
  - destruct (isspace c) eqn:E.
    + destruct in_run.
      * apply IH.
      * split; [|discriminate].
        destruct (IH true) as [Hs Hh].
        apply spaced_cons_intro; auto.
    + split; [|intros _; exact E].
      destruct (IH false) as [Hs _].
      apply spaced_cons_intro; [exact Hs | congruence].
Qed.

(** On Alphabet text without doubled or leading white space the
    substitution of white-space runs changes nothing. *)
Lemma sub_runs_fixed (s : str) (in_run : bool) :
  all_allowed s -> spaced s = true -> (in_run = true -> head_ok s) ->
  sub_runs in_run s = s.
Proof.
  intros Hall. revert in_run.
  induction Hall as [|c s Hc _ IH]; intros in_run Hs Hh; simpl.
  - reflexivity.
  - apply spaced_cons in Hs. destruct Hs as [Hs Hnext].
    destruct (isspace c) eqn:E.
    + destruct in_run.
      * specialize (Hh eq_refl). simpl in Hh. congruence.
      * rewrite (allowed_isspace c Hc E). f_equal. apply IH; auto.
    + f_equal. apply IH; [exact Hs | discriminate].
Qed.

Lemma map_replace_allowed (text : str) :
  all_allowed (map (fun c => if allowed c then c else space) text).
Proof.
  apply Forall_forall. intros c Hc. apply in_map_iff in Hc.
  destruct Hc as [x [Hx _]]. destruct (allowed x) eqn:E; subst c; auto.
Qed.

Lemma map_replace_fixed (s : str) :
  all_allowed s -> map (fun c => if allowed c then c else space) s = s.
Proof.
  induction 1 as [|c s Hc _ IH]; simpl; [reflexivity|].
  now rewrite Hc, IH.
Qed.

Lemma all_allowed_infix (pre s post : str) :
  all_allowed (pre ++ s ++ post) -> all_allowed s.
Proof.
  unfold all_allowed. rewrite !Forall_app. tauto.
Qed.

Lemma normalize_text_normal_form (lower : str -> str) (text : str) :
  normal_form (normalize_text lower text).
Proof.
  unfold normalize_text, re_sub_spaces.
  set (t := map _ (lower text)).
  assert (Ht : all_allowed t) by apply map_replace_allowed.
  destruct (strip_facts (sub_runs false t)) as [Hh [Hr [pre [post Hinf]]]].
  repeat split; auto.
  - apply all_allowed_infix with (pre := pre) (post := post).
    rewrite <- Hinf. now apply sub_runs_allowed.
  - destruct (sub_runs_spaced t false) as [Hs _].
    rewrite Hinf in Hs. apply spaced_app in Hs. destruct Hs as [_ Hs].
    now apply spaced_app in Hs.
Qed.

Lemma is_letter_isspace (c : char) :
  allowed c = true -> is_letter c = negb (isspace c).
Proof.
  intros Ha. unfold is_letter. rewrite Ha. simpl. f_equal.
  destruct (isspace c) eqn:E.
  - apply N.eqb_eq. now apply allowed_isspace.
  - apply N.eqb_neq. intros ->. now rewrite isspace_space in E.
Qed.

Lemma isspace_not_letter (c : char) : isspace c = true -> is_letter c = false.
Proof.
  intros Hs. destruct (allowed c) eqn:Ha.
  - now rewrite is_letter_isspace, Hs.
  - unfold is_letter. now rewrite Ha.
Qed.

Lemma words_from_replace (s : str) :
  forall cur,
    words_from cur (map (fun c => if allowed c then c else space) s)
    = words_from cur s.
Proof.
  induction s as [|c s IH]; intros cur; simpl; [reflexivity|].
  destruct (allowed c) eqn:Ha.
  - destruct (is_letter c); rewrite ?IH; reflexivity.
  - assert (is_letter c = false) as -> by (unfold is_letter; now rewrite Ha).
    change (is_letter space) with false. cbv iota.
    now rewrite IH.
Qed.

Lemma words_from_sub_runs (s : str) :
  forall in_run cur,
    (in_run = true -> cur = []) ->
    words_from cur (sub_runs in_run s) = words_from cur s.
Proof.
  induction s as [|c s IH]; intros in_run cur Hrun; simpl; [reflexivity|].
  destruct (isspace c) eqn:Es.
  - rewrite (isspace_not_letter c Es).
    destruct in_run.
    + rewrite (Hrun eq_refl). now apply IH.
    + simpl. change (is_letter space) with false. cbv iota.
      now rewrite (IH true []).
  - simpl. destruct (is_letter c).
    + apply IH. discriminate.
    + now rewrite (IH false []) by discriminate.
Qed.

Lemma words_from_spaces (s : str) :
  forallb isspace s = true -> words_from [] s = [].
Proof.
  induction s as [|c s IH]; simpl; [reflexivity|].
  rewrite andb_true_iff. intros [Hc Hs].
  rewrite (isspace_not_letter c Hc). now apply IH.
Qed.

Lemma words_from_app_spaces (s post : str) :
  forallb isspace post = true ->
  forall cur, words_from cur (s ++ post) = words_from cur s.
Proof.
  intros Hp. induction s as [|c s IH]; intros cur.
  - simpl. destruct post as [|c post]; [reflexivity|].
    simpl in Hp. apply andb_true_iff in Hp. destruct Hp as [Hc Hp].
    simpl. rewrite (isspace_not_letter c Hc), (words_from_spaces post Hp).
    reflexivity.
  - simpl. destruct (is_letter c); rewrite ?IH; reflexivity.
Qed.

Lemma words_spaces_app (pre s : str) :
  forallb isspace pre = true -> words_from [] (pre ++ s) = words_from [] s.
Proof.
  induction pre as [|c pre IH]; simpl; [reflexivity|].
  rewrite andb_true_iff. intros [Hc Hp].
  rewrite (isspace_not_letter c Hc). now apply IH.
Qed.

Lemma dropwhile_split_all (p : char -> bool) (s : str) :
  exists pre, s = pre ++ dropwhile p s /\ forallb p pre = true.
Proof.
  induction s as [|c s [pre [IH Hp]]]; simpl.
  - now exists [].
  - destruct (p c) eqn:E.
    + exists (c :: pre). simpl. rewrite E, Hp, <- IH. auto.
    + now exists [].
Qed.

(** [strip] removes white space only. *)
Lemma strip_split (s : str) :
  exists pre post,
    s = pre ++ strip s ++ post
    /\ forallb isspace pre = true /\ forallb isspace post = true.
Proof.
  unfold strip.
  destruct (dropwhile_split_all isspace s) as [pre [Hpre Hp]].
  set (y := dropwhile isspace s) in *.
  destruct (dropwhile_split_all isspace (rev y)) as [pre' [Hpre' Hp']].
  set (z := dropwhile isspace (rev y)) in *.
  assert (Hy : y = rev z ++ rev pre').
  { rewrite <- rev_app_distr, <- Hpre'. now rewrite rev_involutive. }
  exists pre, (rev pre'). split; [now rewrite <- Hy|]. split; [exact Hp|].
  rewrite forallb_forall in *. intros x Hx. apply Hp'. now apply in_rev.
Qed.

Lemma words_strip (s : str) : words (strip s) = words s.
Proof.
  destruct (strip_split s) as [pre [post [Hs [Hp Hq]]]].
  unfold words. rewrite Hs at 2.
  rewrite (words_spaces_app pre _ Hp).
  now rewrite (words_from_app_spaces _ post Hq).
Qed.

(** Normalization keeps the words of the lower-cased text. *)
Lemma words_normalize (lower : str -> str) (text : str) :
  words (normalize_text lower text) = words (lower text).
Proof.
  unfold normalize_text, re_sub_spaces. rewrite words_strip. unfold words.
  rewrite words_from_sub_runs by discriminate.
  apply words_from_replace.
Qed.

Lemma words_from_nonempty (s cur : str) : cur <> [] -> words_from cur s <> [].
Proof.
  revert cur. induction s as [|c s IH]; intros cur Hc; simpl.
  - destruct cur; [congruence | discriminate].
  - destruct (is_letter c).
    + apply IH. now destruct cur.
    + destruct cur; [congruence | discriminate].
Qed.

Lemma join_cons (sep w : str) (ws : list str) :
  ws <> [] -> join sep (w :: ws) = w ++ sep ++ join sep ws.
Proof. destruct ws; [congruence | reflexivity]. Qed.

Lemma head_ok_rev_tail (c : char) (s : str) :
  s <> [] -> head_ok (rev (c :: s)) -> head_ok (rev s).
Proof.
  intros Hs. simpl. destruct (rev s) as [|x r] eqn:E; [|auto].
  exfalso. apply Hs. apply (f_equal (@rev char)) in E.
  now rewrite rev_involutive in E.
Qed.

(** A text in normal form is its words joined by single spaces. *)
Lemma join_words_from (s : str) :
  forall cur,
    all_allowed s -> spaced s = true -> head_ok (rev s) ->
    (cur = [] -> head_ok s) ->
    join [space] (words_from cur s) = cur ++ s.
Proof.
  induction s as [|c s IH]; intros cur Hall Hsp Hr Hh.
  - simpl. rewrite app_nil_r. now destruct cur.
  - inversion Hall as [|? ? Hc Hall']; subst.
    apply spaced_cons in Hsp. destruct Hsp as [Hsp Hnext].
    assert (Hr' : head_ok (rev s)).
    { destruct s as [|c' s']; [exact I|].
      apply (head_ok_rev_tail c); [discriminate | exact Hr]. }
    simpl words_from. rewrite (is_letter_isspace c Hc).
    destruct (isspace c) eqn:Es; simpl negb; cbv iota.
    + destruct cur as [|x cur].
      * specialize (Hh eq_refl). simpl in Hh. congruence.
      * specialize (Hnext eq_refl).
        assert (Hs : s <> []).
        { intros ->. simpl in Hr. congruence. }
        assert (Hw : words_from [] s <> []).
        { destruct s as [|c' s']; [congruence|].
          inversion Hall' as [|? ? Hc' _]; subst. simpl in Hnext.
          simpl. rewrite (is_letter_isspace c' Hc'), Hnext. simpl.
          apply words_from_nonempty. discriminate. }
        rewrite join_cons by exact Hw.
        rewrite (IH [] Hall' Hsp Hr' (fun _ => Hnext)).
        rewrite (allowed_isspace c Hc Es). reflexivity.
    + rewrite (IH (cur ++ [c]) Hall' Hsp Hr').
      * now rewrite <- app_assoc.
      * intros E. now destruct cur.
Qed.

Lemma join_words (s : str) : normal_form s -> join [space] (words s) = s.
Proof.
  intros [Hall [Hsp [Hh Hr]]]. unfold words.
  now rewrite (join_words_from s [] Hall Hsp Hr (fun _ => Hh)).
Qed.

(** C4. Whatever the input (and whatever the case mapping of the
    runtime), the output of [normalize_text] is made of Alphabet
    characters only, never holds two spaces in a row, and neither starts
    nor ends with a space; and it is the lower-cased input in which every
    character outside the Alphabet became a space, white-space runs were
    collapsed to one space, and both ends were trimmed: the words of the
    lower-cased input (its maximal runs of Alphabet characters other than
    the space), in order and unchanged, with exactly one space between
    two words and nothing else. *)
Theorem normalize_text_shape (lower : str -> str) (text : str) :
  let out := normalize_text lower text in
  Forall (fun c => In c ALLOWED_CHARS) out
  /\ (forall s1 s2, out <> s1 ++ [space; space] ++ s2)
  /\ (forall s, out <> space :: s)
  /\ (forall s, out <> s ++ [space])
  /\ out = join [space] (words (lower text)).
Proof.
  intros out.
  pose proof (normalize_text_normal_form lower text) as Hnf.
  destruct Hnf as [Hall [Hsp [Hh Hr]]]. fold out in Hall, Hsp, Hh, Hr.
  split; [|split; [|split; [|split]]].
  - eapply Forall_impl; [|exact Hall]. simpl. intros c Hc.
    unfold allowed in Hc. apply existsb_exists in Hc.
    destruct Hc as [x [Hin Hx]]. apply N.eqb_eq in Hx. now subst x.
  - intros s1 s2 E. rewrite E in Hsp. simpl in Hsp.
    apply spaced_no_pair in Hsp. discriminate.
  - intros s E. rewrite E in Hh. simpl in Hh. discriminate.
  - intros s E. rewrite E, rev_app_distr in Hr. simpl in Hr. discriminate.
  - rewrite <- (words_normalize lower text). fold out.
    symmetry. apply join_words. repeat split; assumption.
Qed.

Lemma strip_fixed (s : str) : head_ok s -> head_ok (rev s) -> strip s = s.
Proof.
  intros Hh Hr. unfold strip.
  rewrite (dropwhile_id s Hh), (dropwhile_id (rev s) Hr).
  apply rev_involutive.
Qed.

(** C10. [normalize_text] is idempotent, for every case mapping that
    leaves strings of Alphabet characters (lower-case letters,
    punctuation and the space) as they are, as [str.lower] does. *)
Theorem normalize_text_idempotent (lower : str -> str) (t : str) :
  (forall s, all_allowed s -> lower s = s) ->
  normalize_text lower (normalize_text lower t) = normalize_text lower t.
Proof.
  intros Hlower.
  destruct (normalize_text_normal_form lower t) as [Hall [Hsp [Hh Hr]]].
  set (out := normalize_text lower t) in *.
  unfold normalize_text at 1, re_sub_spaces.
  rewrite (Hlower out Hall), (map_replace_fixed out Hall).
  rewrite (sub_runs_fixed out false Hall Hsp) by discriminate.
  now apply strip_fixed.
Qed.

Lemma lower_basic_allowed (s : str) : all_allowed s -> lower_basic s = s.
Proof.
  unfold lower_basic.
  induction 1 as [|c s Hc _ IH]; simpl; [reflexivity|].
  rewrite IH. f_equal.
  assert (H : forallb (fun x => N.eqb (lower_char x) x) ALLOWED_CHARS = true)
    by reflexivity.
  rewrite forallb_forall in H.
  unfold allowed in Hc. apply existsb_exists in Hc.
  destruct Hc as [x [Hin Hx]]. apply N.eqb_eq in Hx. subst x.
  apply N.eqb_eq. now apply H.
Qed.

Lemma normalize_text_idempotent_witness :
  normalize_text lower_basic (normalize_text lower_basic privet_mir)
  = normalize_text lower_basic privet_mir.
Proof.
  exact (normalize_text_idempotent lower_basic privet_mir lower_basic_allowed).
Defined.

(** ** The lookup entry point *)

(** C9. For a context of length 0 or of more than 13 characters
    [get_probabilities] returns the empty mapping, raises nothing and
    leaves the world as it was: no statement reaches the store. *)
Theorem get_probabilities_out_of_range (context : str) (w : world) :
  length context = 0 \/ 13 < length context ->
  MarkovModel.get_probabilities context w = (Ok [], w).
Proof.
  intros H. unfold MarkovModel.get_probabilities.
  assert ((length context =? 0) || (13 <? length context) = true) as ->.
  { apply orb_true_iff. rewrite Nat.eqb_eq, Nat.ltb_lt. exact H. }
  reflexivity.
Qed.

Lemma get_probabilities_out_of_range_witness :
  (length (repeat space 14) = 0 \/ 13 < length (repeat space 14))
  /\ MarkovModel.get_probabilities (repeat space 14) stored_world
     = (Ok [], stored_world).
Proof.
  assert (H : length (repeat space 14) = 0 \/ 13 < length (repeat space 14))
    by (right; simpl; lia).
  split; [exact H|].
  exact (get_probabilities_out_of_range (repeat space 14) stored_world H).
Defined.

(** ** Transactions *)

Lemma keeps_ret {A} (a : A) : keeps_committed (ret a).
Proof. intros w r w' H. inversion H; reflexivity. Qed.

Lemma keeps_raise {A} (e : exn) : keeps_committed (@raise A e).
Proof. intros w r w' H. inversion H; reflexivity. Qed.

Lemma keeps_bind {A B} (m : M A) (k : A -> M B) :
  keeps_committed m -> (forall a, keeps_committed (k a)) ->
  keeps_committed (bind m k).
Proof.
  intros Hm Hk w r w' H. unfold bind in H.
  destruct (m w) as [[a|e] w1] eqn:E.
  - rewrite (Hk a _ _ _ H). exact (Hm _ _ _ E).
  - inversion H; subst. exact (Hm _ _ _ E).
Qed.

Lemma keeps_emit (e : event) : keeps_committed (emit e).
Proof. intros w r w' H. inversion H; reflexivity. Qed.

Lemma keeps_storage_action : keeps_committed storage_action.
Proof.
  intros w r w' H. unfold storage_action in H.
  destruct (faults w) as [[|k]|]; inversion H; reflexivity.
Qed.

Lemma keeps_modify_working (f : tables -> tables) :
  keeps_committed (modify_working f).
Proof. intros w r w' H. inversion H; reflexivity. Qed.

Lemma keeps_read_working {A} (f : tables -> A) :
  keeps_committed (read_working f).
Proof. intros w r w' H. inversion H; reflexivity. Qed.

Lemma keeps_require_table (n : nat) : keeps_committed (require_table n).
Proof.
  unfold require_table. destruct (table_exists n);
    [apply keeps_ret | apply keeps_raise].
Qed.

Lemma keeps_for_each {A} (l : list A) (body : A -> M unit) :
  (forall x, keeps_committed (body x)) -> keeps_committed (for_each l body).
Proof.
  intros Hb. induction l as [|x l IH]; simpl.
  - apply keeps_ret.
  - apply keeps_bind; auto.
Qed.

Create HintDb keeps.

#[local] Hint Resolve keeps_ret keeps_raise keeps_emit keeps_storage_action
  keeps_modify_working keeps_read_working keeps_require_table : keeps.

Lemma keeps_insert_row (n : nat) (r : row) : keeps_committed (insert_row n r).
Proof.
  unfold insert_row.
  apply keeps_bind; auto with keeps. intros _.
  apply keeps_bind; auto with keeps. intros rows.
  destruct (existsb (same_key r) rows); auto with keeps.
Qed.

Lemma keeps_truncate_markov (n : nat) : keeps_committed (truncate_markov n).
Proof.
  unfold truncate_markov.
  repeat (apply keeps_bind; [auto with keeps | intros _]). auto with keeps.
Qed.

Lemma keeps_copy_expert (n : nat) (staged : list row) :
  keeps_committed (copy_expert n staged).
Proof.
  unfold copy_expert.
  repeat (apply keeps_bind; [auto with keeps | intros _]).
  apply keeps_for_each. apply keeps_insert_row.
Qed.

Lemma keeps_execute_batch (n : nat) (batch : list row) :
  keeps_committed (execute_batch n batch).
Proof.
  unfold execute_batch.
  repeat (apply keeps_bind; [auto with keeps | intros _]).
  apply keeps_for_each. apply keeps_insert_row.
Qed.

(** A commit that fails made nothing durable. *)
Lemma commit_raise (w w' : world) (e : exn) :
  commit w = (Raise e, w') -> committed w' = committed w.
Proof.
  unfold commit, bind, emit, storage_action. simpl.
  destruct (faults w) as [[|k]|]; intros H; inversion H; reflexivity.
Qed.

Lemma rollback_run (w : world) :
  rollback w
  = (Ok tt, mkWorld (committed w) (committed w) (faults w) (rng w) (drawn w)
                    (trace w ++ [SqlRollback])).
Proof. reflexivity. Qed.

(** C8. When [save_markov_frequencies_bulk] ends in an error, whatever
    the storage action that failed (the TRUNCATE, any row of the COPY, the
    COMMIT), the durable content of the store is exactly what it was before
    the call: no row of the new table is persisted. The last statement sent
    is the ROLLBACK, after which the connection sees the durable content
    again. *)
Theorem bulk_load_failure_rolls_back
    (n : nat) (frequencies : dict (dict Z)) (w w' : world) (e : exn) :
  MarkovDatabase.save_markov_frequencies_bulk n frequencies w = (Raise e, w') ->
  committed w' = committed w
  /\ working w' = committed w
  /\ last (trace w') SqlCommit = SqlRollback.
Proof.
  unfold MarkovDatabase.save_markov_frequencies_bulk, try_except.
  set (staged := MarkovDatabase.rows_of frequencies).
  destruct ((truncate_markov n ;; copy_expert n staged ;; commit) w)
    as [[[]|e1] w1] eqn:Hbody; [discriminate|].
  assert (Hc : committed w1 = committed w).
  { unfold bind at 1 in Hbody.
    destruct (truncate_markov n w) as [[[]|e2] w2] eqn:Ht.
    - pose proof (keeps_truncate_markov n _ _ _ Ht) as H2.
      unfold bind in Hbody.
      destruct (copy_expert n staged w2) as [[[]|e3] w3] eqn:Hcp.
      + pose proof (keeps_copy_expert n staged _ _ _ Hcp) as H3.
        apply commit_raise in Hbody. congruence.
      + inversion Hbody; subst.
        pose proof (keeps_copy_expert n staged _ _ _ Hcp). congruence.
    - inversion Hbody; subst. exact (keeps_truncate_markov n _ _ _ Ht). }
  unfold bind. rewrite rollback_run. unfold raise.
  intros H. inversion H; subst. simpl.
  rewrite last_last. auto.
Qed.

Lemma bulk_load_failure_rolls_back_witness :
  let w := with_faults 3 stored_world in
  let w' := snd (MarkovDatabase.save_markov_frequencies_bulk
                   1 table_three_rows w) in
  MarkovDatabase.save_markov_frequencies_bulk 1 table_three_rows w
  = (Raise StorageError, w')
  /\ committed w' = committed w
  /\ working w' = committed w
  /\ last (trace w') SqlCommit = SqlRollback.
Proof.
  intros w w'.
  assert (H : MarkovDatabase.save_markov_frequencies_bulk 1 table_three_rows w
              = (Raise StorageError, w')) by (vm_compute; reflexivity).
  split; [exact H|].
  exact (bulk_load_failure_rolls_back 1 table_three_rows w w' StorageError H).
Defined.

(** ** Loading a table into a healthy store *)

Lemma bind_ok {A B} (m : M A) (k : A -> M B) (w w1 : world) (a : A) :
  m w = (Ok a, w1) -> bind m k w = k a w1.
Proof. intros H. unfold bind. now rewrite H. Qed.

Lemma storage_action_healthy (w : world) :
  faults w = None -> storage_action w = (Ok tt, w).
Proof. intros H. unfold storage_action. now rewrite H. Qed.

Lemma require_table_ok (n : nat) (w : world) :
  table_exists n = true -> require_table n w = (Ok tt, w).
Proof. intros H. unfold require_table. now rewrite H. Qed.

Lemma same_key_eq (r r' : row) : same_key r r' = true <-> key r = key r'.
Proof.
  unfold same_key, key. rewrite andb_true_iff, !str_eqb_eq.
  split; [intros [-> ->]; reflexivity | intros H; inversion H; auto].
Qed.

Lemma unique_keys_fresh (cur rest : list row) (r : row) :
  unique_keys (cur ++ r :: rest) -> existsb (same_key r) cur = false.
Proof.
  intros H. destruct (existsb (same_key r) cur) eqn:E; [|reflexivity].
  exfalso. apply existsb_exists in E. destruct E as [x [Hin Hx]].
  apply same_key_eq in Hx.
  unfold unique_keys in H. rewrite map_app in H. simpl in H.
  apply NoDup_remove_2 in H. apply H. apply in_or_app. left.
  rewrite Hx. now apply in_map.
Qed.

Lemma insert_row_ok (n : nat) (r : row) (w : world) :
  faults w = None ->
  existsb (same_key r) (markov (working w) n) = false ->
  exists w',
    insert_row n r w = (Ok tt, w')
    /\ faults w' = None
    /\ markov (working w') n = markov (working w) n ++ [r].
Proof.
  intros Hf Hk. unfold insert_row.
  rewrite (bind_ok _ _ _ _ _ (storage_action_healthy w Hf)).
  unfold bind, read_working. rewrite Hk.
  eexists. split; [reflexivity|]. simpl. rewrite Nat.eqb_refl. auto.
Qed.

Lemma insert_rows_ok (n : nat) (rows : list row) (w : world) :
  faults w = None ->
  unique_keys (markov (working w) n ++ rows) ->
  exists w',
    for_each rows (insert_row n) w = (Ok tt, w')
    /\ faults w' = None
    /\ markov (working w') n = markov (working w) n ++ rows.
Proof.
  revert w. induction rows as [|r rows IH]; intros w Hf Hu.
  - exists w. rewrite app_nil_r. auto.
  - destruct (insert_row_ok n r w Hf (unique_keys_fresh _ _ _ Hu))
      as [w1 [H1 [Hf1 Hm1]]].
    destruct (IH w1 Hf1) as [w2 [H2 [Hf2 Hm2]]].
    { rewrite Hm1, <- app_assoc. exact Hu. }
    exists w2. simpl for_each.
    rewrite (bind_ok _ _ _ _ _ H1). split; [exact H2|]. split; [exact Hf2|].
    rewrite Hm2, Hm1, <- app_assoc. reflexivity.
Qed.

Lemma truncate_markov_ok (n : nat) (w : world) :
  faults w = None -> table_exists n = true ->
  exists w',
    truncate_markov n w = (Ok tt, w')
    /\ faults w' = None /\ markov (working w') n = [].
Proof.
  intros Hf Hn. unfold truncate_markov, bind, emit.
  rewrite storage_action_healthy by exact Hf.
  rewrite require_table_ok by exact Hn.
  eexists. split; [reflexivity|]. simpl. rewrite Nat.eqb_refl. auto.
Qed.

Lemma commit_ok (w : world) :
  faults w = None ->
  exists w',
    commit w = (Ok tt, w')
    /\ faults w' = None /\ working w' = working w.
Proof.
  intros Hf. unfold commit, bind, emit.
  rewrite storage_action_healthy by exact Hf.
  eexists. split; [reflexivity|]. simpl. auto.
Qed.

Lemma copy_expert_ok (n : nat) (staged : list row) (w : world) :
  faults w = None -> table_exists n = true ->
  unique_keys (markov (working w) n ++ staged) ->
  exists w',
    copy_expert n staged w = (Ok tt, w')
    /\ faults w' = None
    /\ markov (working w') n = markov (working w) n ++ staged.
Proof.
  intros Hf Hn Hu. unfold copy_expert, bind, emit.
  rewrite require_table_ok by exact Hn.
  apply (insert_rows_ok n staged (log _ w)); assumption.
Qed.

Lemma execute_batch_ok (n : nat) (batch : list row) (w : world) :
  faults w = None -> table_exists n = true ->
  unique_keys (markov (working w) n ++ batch) ->
  exists w',
    execute_batch n batch w = (Ok tt, w')
    /\ faults w' = None
    /\ markov (working w') n = markov (working w) n ++ batch.
Proof.
  intros Hf Hn Hu. unfold execute_batch, bind, emit.
  rewrite require_table_ok by exact Hn.
  apply (insert_rows_ok n batch (log _ w)); assumption.
Qed.

Lemma firstn_add {A} (i j : nat) (l : list A) :
  firstn (i + j) l = firstn i l ++ firstn j (skipn i l).
Proof.
  revert l. induction i as [|i IH]; intros l; simpl.
  - reflexivity.
  - destruct l as [|x l]; simpl.
    + now rewrite firstn_nil.
    + now rewrite IH.
Qed.

Lemma unique_keys_prefix (pre data : list row) (k : nat) :
  unique_keys (pre ++ data) -> unique_keys (pre ++ firstn k data).
Proof.
  intros H. rewrite <- (firstn_skipn k data), app_assoc in H.
  unfold unique_keys in *. rewrite map_app in H.
  now apply NoDup_app_remove_r in H.
Qed.

(** The batches written by the loop over [range(a*step, ..., step)],
    [m] of them, extend the table from the first [a*step] rows of [data]
    to its first [(a+m)*step] rows. *)
Lemma save_chunks_ok (n step : nat) (pre data : list row) (m : nat) :
  table_exists n = true ->
  unique_keys (pre ++ data) ->
  forall (a : nat) (w : world),
    faults w = None ->
    markov (working w) n = pre ++ firstn (a * step) data ->
    exists w',
      for_each (map (fun k => k * step) (seq a m))
               (fun i => execute_batch n (firstn step (skipn i data)) ;; commit)
               w
      = (Ok tt, w')
      /\ faults w' = None
      /\ markov (working w') n = pre ++ firstn ((a + m) * step) data.
Proof.
  intros Hn Hu. induction m as [|m IH]; intros a w Hf Hm.
  - exists w. simpl. rewrite Nat.add_0_r. auto.
  - simpl seq. simpl map. simpl for_each.
    assert (Hnext : pre ++ firstn (a * step) data
                    ++ firstn step (skipn (a * step) data)
                    = pre ++ firstn (S a * step) data).
    { f_equal. rewrite <- firstn_add. f_equal. lia. }
    destruct (execute_batch_ok n (firstn step (skipn (a * step) data)) w Hf Hn)
      as [w1 [H1 [Hf1 Hm1]]].
    { rewrite Hm, <- app_assoc, Hnext. now apply unique_keys_prefix. }
    destruct (commit_ok w1 Hf1) as [w2 [H2 [Hf2 Hw2]]].
    destruct (IH (S a) w2 Hf2) as [w3 [H3 [Hf3 Hm3]]].
    { rewrite Hw2, Hm1, Hm, <- app_assoc. exact Hnext. }
    exists w3. split; [|split; [exact Hf3|]].
    + unfold bind at 1. unfold bind at 1. rewrite H1, H2. exact H3.
    + rewrite Hm3. do 2 f_equal. lia.
Qed.

Lemma save_batches_ok (n step : nat) (data : list row) (w : world) :
  0 < step -> table_exists n = true -> faults w = None ->
  markov (working w) n = [] -> unique_keys data ->
  exists w',
    MarkovDatabase.save_batches n step data w = (Ok tt, w')
    /\ faults w' = None /\ markov (working w') n = data.
Proof.
  intros Hs Hn Hf Hm Hu. unfold MarkovDatabase.save_batches,
    MarkovDatabase.range_step.
  destruct (save_chunks_ok n step [] data
              ((length data + step - 1) / step) Hn Hu 0 w Hf)
    as [w' [H [Hf' Hm']]].
  { rewrite Hm. reflexivity. }
  exists w'. split; [exact H|]. split; [exact Hf'|].
  rewrite Hm'. simpl. apply firstn_all2.
  pose proof (Nat.mul_succ_div_gt (length data + step - 1) step) as Hd.
  specialize (Hd ltac:(lia)).
  remember ((length data + step - 1) / step) as q. nia.
Qed.

Lemma rows_of_context (T : dict (dict Z)) (r : row) :
  In r (MarkovDatabase.rows_of T) -> In (r_context r) (keys T).
Proof.
  unfold MarkovDatabase.rows_of. intros H. apply in_flat_map in H.
  destruct H as [[c symbols] [HT Hr]]. apply in_map_iff in Hr.
  destruct Hr as [[s f] [<- _]]. simpl.
  change c with (fst (c, symbols)). now apply in_map.
Qed.

Lemma NoDup_map_pair (c : str) (l : list str) :
  NoDup l -> NoDup (map (fun s => (c, s)) l).
Proof.
  induction 1 as [|s l Hs _ IH]; simpl; constructor; [|exact IH].
  intros H. apply in_map_iff in H. destruct H as [s' [E Hin]].
  inversion E; subst. contradiction.
Qed.

Lemma rows_of_unique (T : dict (dict Z)) :
  well_formed T -> unique_keys (MarkovDatabase.rows_of T).
Proof.
  unfold well_formed, unique_keys.
  induction T as [|[c symbols] T IH]; intros [Hk Hv]; simpl.
  - constructor.
  - simpl in Hk, Hv. inversion Hk as [|? ? Hc Hk']; subst.
    inversion Hv as [|? ? Hs Hv']; subst.
    rewrite map_app. apply NoDup_app.
    + rewrite map_map.
      rewrite (map_ext _ (fun p => (c, fst p))) by (now intros [s f]).
      rewrite <- (map_map fst (fun s => (c, s))).
      now apply NoDup_map_pair.
    + apply IH. split; assumption.
    + intros a Ha Hb. apply in_map_iff in Ha. destruct Ha as [r1 [<- H1]].
      apply in_map_iff in H1. destruct H1 as [[s f] [<- _]].
      apply in_map_iff in Hb. destruct Hb as [r2 [E H2]].
      apply rows_of_context in H2. unfold key in E. simpl in E.
      inversion E as [[E1 E2]]. rewrite E1 in H2. contradiction.
Qed.

Lemma get_not_in {V} (k : str) (d : dict V) :
  ~ In k (keys d) -> get k d = None.
Proof.
  induction d as [|[k' v] d IH]; simpl; intros H; [reflexivity|].
  destruct (str_eqb k k') eqn:E.
  - apply str_eqb_eq in E. subst k'. tauto.
  - apply IH. tauto.
Qed.

(** Selecting the rows of a context from a loaded table gives back the
    inner dictionary of that context. *)
Lemma filter_rows_of (T : dict (dict Z)) (c : str) :
  NoDup (keys T) ->
  map (fun r => (r_symbol r, r_frequency r))
      (filter (fun r => str_eqb (r_context r) c) (MarkovDatabase.rows_of T))
  = get_default c [] T.
Proof.
  unfold get_default.
  induction T as [|[c0 symbols] T IH]; intros Hk; simpl.
  - reflexivity.
  - simpl in Hk. inversion Hk as [|? ? Hc Hk']; subst.
    rewrite filter_app, map_app, IH by assumption.
    rewrite (str_eqb_sym c c0).
    destruct (str_eqb c0 c) eqn:E.
    + apply str_eqb_eq in E. subst c0.
      rewrite get_not_in by exact Hc.
      rewrite app_nil_r.
      induction symbols as [|[s f] symbols IHs]; simpl; [reflexivity|].
      rewrite str_eqb_refl. simpl. now rewrite IHs.
    + assert (filter (fun r => str_eqb (r_context r) c)
                     (map (fun '(symbol, freq) => mkRow c0 symbol freq) symbols)
              = []) as ->.
      { induction symbols as [|[s f] symbols IHs]; simpl; [reflexivity|].
        now rewrite E. }
      reflexivity.
Qed.

Lemma set_fresh {V} (k : str) (v : V) (d : dict V) :
  ~ In k (keys d) -> set k v d = d ++ [(k, v)].
Proof.
  induction d as [|[k' v'] d IH]; simpl; intros H.
  - reflexivity.
  - assert (str_eqb k k' = false) as -> by (apply str_eqb_neq; intuition).
    rewrite IH; [reflexivity | intuition].
Qed.

(** With one row per symbol, as the primary key imposes, the loop that
    fills [probabilities] maps every row to its share, in row order. *)
Lemma probabilities_of_unique (rows : list (str * Z)) :
  NoDup (keys rows) ->
  MarkovDatabase.probabilities_of rows = relative_frequencies rows.
Proof.
  unfold MarkovDatabase.probabilities_of, relative_frequencies.
  change (MarkovDatabase.total_of rows) with (sum_values rows).
  generalize (sum_values rows). intros total Hk.
  set (g := fun f : Z =>
              if (0 <? total)%Z then MarkovDatabase.true_div f total else 0%Q).
  assert (H : forall acc : dict Q,
             NoDup (keys acc ++ keys rows) ->
             fold_left (fun probabilities '(symbol, freq) =>
                          set symbol (g freq) probabilities) rows acc
             = acc ++ map (fun '(symbol, freq) => (symbol, g freq)) rows).
  { clear Hk. induction rows as [|[s f] rows IH]; intros acc Hn; simpl.
    - now rewrite app_nil_r.
    - simpl in Hn. rewrite set_fresh.
      + rewrite IH.
        * now rewrite <- app_assoc.
        * unfold keys in *. rewrite map_app, <- app_assoc. exact Hn.
      + apply NoDup_remove_2 in Hn. intros Hin. apply Hn.
        apply in_or_app. now left. }
  apply (H []). exact Hk.
Qed.

Lemma get_markov_probabilities_healthy (n : nat) (c : str) (w : world) :
  faults w = None -> table_exists n = true ->
  MarkovDatabase.get_markov_probabilities n c w
  = (Ok (stored_probabilities (working w) n c),
     log [SqlSelect (markov_tbl n) (Some c)] w).
Proof.
  intros Hf Hn.
  unfold MarkovDatabase.get_markov_probabilities, try_except, select_markov,
    bind, emit, read_working, stored_probabilities.
  rewrite storage_action_healthy by exact Hf.
  rewrite require_table_ok by exact Hn.
  change (working (log [SqlSelect (markov_tbl n) (Some c)] w))
    with (working w).
  destruct (rows_for (working w) n c); reflexivity.
Qed.

Lemma batch_size_positive : 0 < MarkovDatabase.batch_size.
Proof. apply Nat.ltb_lt. vm_compute. reflexivity. Qed.

Lemma save_markov_frequencies_ok (n : nat) (T : dict (dict Z)) (w : world) :
  table_exists n = true -> well_formed T -> faults w = None ->
  exists w',
    MarkovDatabase.save_markov_frequencies n T w = (Ok tt, w')
    /\ faults w' = None
    /\ markov (working w') n = MarkovDatabase.rows_of T.
Proof.
  intros Hn HT Hf.
  destruct (truncate_markov_ok n w Hf Hn) as [w1 [H1 [Hf1 Hm1]]].
  destruct (save_batches_ok n MarkovDatabase.batch_size
              (MarkovDatabase.rows_of T) w1 batch_size_positive Hn Hf1 Hm1
              (rows_of_unique T HT)) as [w2 [H2 [Hf2 Hm2]]].
  exists w2. split; [|auto].
  unfold MarkovDatabase.save_markov_frequencies, try_except, bind.
  rewrite H1. cbv zeta. now rewrite H2.
Qed.

Lemma save_markov_frequencies_bulk_ok
    (n : nat) (T : dict (dict Z)) (w : world) :
  table_exists n = true -> well_formed T -> faults w = None ->
  exists w',
    MarkovDatabase.save_markov_frequencies_bulk n T w = (Ok tt, w')
    /\ faults w' = None
    /\ markov (working w') n = MarkovDatabase.rows_of T.
Proof.
  intros Hn HT Hf.
  destruct (truncate_markov_ok n w Hf Hn) as [w1 [H1 [Hf1 Hm1]]].
  destruct (copy_expert_ok n (MarkovDatabase.rows_of T) w1 Hf1 Hn)
    as [w2 [H2 [Hf2 Hm2]]].
  { rewrite Hm1. simpl. now apply rows_of_unique. }
  destruct (commit_ok w2 Hf2) as [w3 [H3 [Hf3 Hw3]]].
  exists w3. split; [|split; [exact Hf3|]].
  - unfold MarkovDatabase.save_markov_frequencies_bulk, try_except, bind.
    rewrite H1. cbv zeta. now rewrite H2, H3.
  - now rewrite Hw3, Hm2, Hm1.
Qed.

Lemma get_default_keys_unique (T : dict (dict Z)) (c : str) :
  well_formed T -> NoDup (keys (get_default c [] T)).
Proof.
  intros [_ Hv]. unfold get_default.
  induction T as [|[k v] T IH]; simpl.
  - constructor.
  - simpl in Hv. inversion Hv; subst.
    destruct (str_eqb c k); [assumption | now apply IH].
Qed.

(** What a query finds once the rows of [T] are in table [n]. *)
Lemma query_after_load
    (n : nat) (T : dict (dict Z)) (c : str) (w : world) :
  table_exists n = true -> well_formed T -> faults w = None ->
  markov (working w) n = MarkovDatabase.rows_of T ->
  exists w',
    MarkovDatabase.get_markov_probabilities n c w
    = (Ok (relative_frequencies (get_default c [] T)), w').
Proof.
  intros Hn HT Hf Hm. eexists.
  rewrite get_markov_probabilities_healthy by assumption.
  f_equal. f_equal. unfold stored_probabilities, rows_for.
  rewrite Hm, filter_rows_of by apply HT.
  pose proof (get_default_keys_unique T c HT) as Hk.
  destruct (get_default c [] T) as [|p counts] eqn:E; [reflexivity|].
  now apply probabilities_of_unique.
Qed.

(** C1, as amended. On a healthy store, for every order [n] in 1..13 and
    every table [T], after [T] is saved as order [n] by either strategy
    the query for a context [c] returns, when [c] is a key of [T], the
    symbols of [T[c]] each mapped to its count divided by the sum of the
    counts of [T[c]] (to 0 when that sum is not positive), and the empty
    mapping when [c] is not a key of [T]. *)
Theorem round_trip_relative_frequencies
    (save : nat -> dict (dict Z) -> M unit)
    (n : nat) (T : dict (dict Z)) (c : str) (w : world) :
  save = MarkovDatabase.save_markov_frequencies
  \/ save = MarkovDatabase.save_markov_frequencies_bulk ->
  table_exists n = true -> well_formed T -> faults w = None ->
  exists w1 w2,
    save n T w = (Ok tt, w1)
    /\ MarkovDatabase.get_markov_probabilities n c w1
       = (Ok match get c T with
             | Some counts => relative_frequencies counts
             | None => []
             end,
          w2).
Proof.
  intros Hsave Hn HT Hf.
  assert (Hload : exists w1, save n T w = (Ok tt, w1) /\ faults w1 = None
                  /\ markov (working w1) n = MarkovDatabase.rows_of T).
  { destruct Hsave; subst save.
    - now apply save_markov_frequencies_ok.
    - now apply save_markov_frequencies_bulk_ok. }
  destruct Hload as [w1 [H1 [Hf1 Hm1]]].
  destruct (query_after_load n T c w1 Hn HT Hf1 Hm1) as [w2 H2].
  exists w1, w2. split; [exact H1|]. rewrite H2.
  unfold get_default, dict.
  match goal with
  | |- context [@get ?V c T] => destruct (@get V c T); reflexivity
  end.
Qed.

Lemma table_three_rows_well_formed : well_formed table_three_rows.
Proof.
  split.
  - repeat constructor; simpl; intuition discriminate.
  - repeat constructor; simpl; intuition discriminate.
Qed.

Lemma round_trip_relative_frequencies_witness :
  table_exists 1 = true
  /\ well_formed table_three_rows
  /\ faults (fresh_world 0) = None
  /\ exists w1 w2,
       MarkovDatabase.save_markov_frequencies_bulk
         1 table_three_rows (fresh_world 0) = (Ok tt, w1)
       /\ MarkovDatabase.get_markov_probabilities 1 s_a w1
          = (Ok [(s_m, 2 # 3); (s_a, 1 # 3)], w2).
Proof.
  split; [reflexivity|]. split; [exact table_three_rows_well_formed|].
  split; [reflexivity|].
  exact (round_trip_relative_frequencies
           MarkovDatabase.save_markov_frequencies_bulk
           1 table_three_rows s_a (fresh_world 0)
           (or_intror eq_refl) eq_refl table_three_rows_well_formed eq_refl).
Defined.

(** C1, as the specification states it, fails: with [{"а": {"м": 2}}]
    saved as order 1 (by either strategy) the query for "а" returns
    [{"м": 1}], the share of "м", and not the stored [{"м": 2}]. *)
Lemma round_trip_counts_counterexample :
  ~ returns_stored_counts MarkovDatabase.save_markov_frequencies
      1 table_a_m2 (fresh_world 0) s_a
  /\ ~ returns_stored_counts MarkovDatabase.save_markov_frequencies_bulk
         1 table_a_m2 (fresh_world 0) s_a.
Proof.
  split; intros (w1 & probs & w2 & H1 & H2 & H3).
  - assert (E : w1 = snd (MarkovDatabase.save_markov_frequencies
                            1 table_a_m2 (fresh_world 0)))
      by (rewrite H1; reflexivity).
    subst w1. vm_compute in H2. inversion H2; subst probs.
    specialize (H3 s_m). vm_compute in H3. discriminate.
  - assert (E : w1 = snd (MarkovDatabase.save_markov_frequencies_bulk
                            1 table_a_m2 (fresh_world 0)))
      by (rewrite H1; reflexivity).
    subst w1. vm_compute in H2. inversion H2; subst probs.
    specialize (H3 s_m). vm_compute in H3. discriminate.
Qed.

(** ** Generation on a healthy store *)

Lemma log_log (e1 e2 : list event) (w : world) :
  log e2 (log e1 w) = log (e1 ++ e2) w.
Proof. unfold log. simpl. now rewrite app_assoc. Qed.

Lemma get_probabilities_healthy (c : str) (w : world) :
  faults w = None -> 1 <= length c <= 13 ->
  MarkovModel.get_probabilities c w
  = (Ok (stored_for (working w) c), log [query_event c] w).
Proof.
  intros Hf Hc. unfold MarkovModel.get_probabilities.
  assert ((length c =? 0) || (13 <? length c) = false) as ->.
  { apply orb_false_iff. rewrite Nat.eqb_neq, Nat.ltb_ge. lia. }
  apply get_markov_probabilities_healthy; [exact Hf|].
  unfold table_exists. apply andb_true_iff.
  rewrite !Nat.leb_le. lia.
Qed.

Lemma get_overall_probabilities_healthy (w : world) :
  faults w = None ->
  MarkovDatabase.get_overall_probabilities w
  = (Ok (overall_probabilities (working w)),
     log [SqlSelect overall_tbl None] w).
Proof.
  intros Hf.
  unfold MarkovDatabase.get_overall_probabilities, try_except, select_overall,
    bind, emit, read_working.
  rewrite storage_action_healthy by exact Hf. reflexivity.
Qed.

Lemma back_off_cons (x : char) (rest : str) (probs : dict Q) :
  MarkovModel.back_off (x :: rest) probs
  = if MarkovModel.is_empty probs && (1 <? length (x :: rest))
    then bind (MarkovModel.get_probabilities rest) (MarkovModel.back_off rest)
    else ret (x :: rest, probs).
Proof. reflexivity. Qed.

(** The first lookup and the back-off loop together: the context kept
    is [c] without its first [k] characters, where [k] is the first index
    at which the suffix has a stored distribution, or the index of the
    one-character suffix when none has. *)
Lemma back_off_healthy (c : str) :
  forall w : world,
    faults w = None -> 1 <= length c <= 13 ->
    exists k,
      k < length c
      /\ (forall j, j < k -> stored_for (working w) (skipn j c) = [])
      /\ (stored_for (working w) (skipn k c) = [] -> k = length c - 1)
      /\ bind (MarkovModel.get_probabilities c) (MarkovModel.back_off c) w
         = (Ok (skipn k c, stored_for (working w) (skipn k c)),
            log (back_off_queries c k) w).
Proof.
  induction c as [|x rest IH]; intros w Hf Hc; [simpl in Hc; lia|].
  rewrite (bind_ok _ _ _ _ _ (get_probabilities_healthy (x :: rest) w Hf Hc)).
  rewrite back_off_cons.
  destruct (MarkovModel.is_empty (stored_for (working w) (x :: rest))
            && (1 <? length (x :: rest))) eqn:E.
  - apply andb_true_iff in E. destruct E as [Hempty Hlen].
    apply Nat.ltb_lt in Hlen. simpl in Hlen, Hc.
    destruct (IH (log [query_event (x :: rest)] w) Hf ltac:(lia))
      as [k [Hk [Hbefore [Hlast Hrun]]]].
    change (working (log [query_event (x :: rest)] w)) with (working w) in *.
    exists (S k). split; [simpl; lia|]. split; [|split].
    + intros [|j] Hj.
      * simpl. destruct (stored_for (working w) (x :: rest));
          [reflexivity | discriminate].
      * simpl. apply Hbefore. lia.
    + simpl. intros H. specialize (Hlast H). lia.
    + rewrite Hrun, log_log. simpl skipn. do 2 f_equal.
      unfold back_off_queries.
      change (seq 0 (S (S k))) with (0 :: seq 1 (S k)).
      rewrite <- (seq_shift (S k) 0), map_cons, map_map. reflexivity.
  - exists 0. split; [simpl; lia|]. split; [intros j Hj; lia|]. split.
    + simpl. intros H. rewrite H in E. simpl in E.
      apply Nat.ltb_ge in E. simpl in E. lia.
    + reflexivity.
Qed.

(** A generation step on a healthy store: the look-ups of the suffixes
    of the context, longest first, then the end of the step on the
    context kept. *)
Lemma generate_step_healthy (result c : str) (w : world) :
  faults w = None -> 1 <= length c <= 13 ->
  exists k,
    k < length c
    /\ (forall j, j < k -> stored_for (working w) (skipn j c) = [])
    /\ (stored_for (working w) (skipn k c) = [] -> k = length c - 1)
    /\ MarkovModel.generate_step result c w
       = finish_step result (skipn k c)
           (stored_for (working w) (skipn k c))
           (overall_probabilities (working w))
           (log (back_off_queries c k) w).
Proof.
  intros Hf Hc.
  destruct (back_off_healthy c w Hf Hc) as [k [Hk [Hbefore [Hlast Hrun]]]].
  exists k. repeat (split; [assumption|]).
  unfold MarkovModel.generate_step.
  unfold bind at 1. unfold bind at 1.
  unfold bind in Hrun.
  destruct (MarkovModel.get_probabilities c w) as [[probs0|e0] w0];
    [|discriminate].
  rewrite Hrun. cbv beta iota zeta.
  set (w1 := log (back_off_queries c k) w).
  set (probs := stored_for (working w) (skipn k c)).
  set (overall := overall_probabilities (working w)).
  unfold finish_step.
  destruct probs as [|p probs'] eqn:Ep.
  - simpl MarkovModel.is_empty. cbv iota.
    unfold bind at 1.
    rewrite get_overall_probabilities_healthy by exact Hf.
    change (overall_probabilities (working w1)) with overall.
    unfold bind at 2. unfold emit.
    destruct overall as [|q overall']; reflexivity.
  - reflexivity.
Qed.

(** With no context at all (an empty seed, at the first step) nothing
    is looked up: the step goes to the overall distribution at once. *)
Lemma generate_step_empty_context (result : str) (w : world) :
  faults w = None ->
  MarkovModel.generate_step result [] w
  = finish_step result [] [] (overall_probabilities (working w)) w.
Proof.
  intros Hf.
  unfold MarkovModel.generate_step, MarkovModel.get_probabilities.
  simpl orb. cbv iota. unfold bind at 1. unfold ret at 1.
  unfold bind at 1. simpl MarkovModel.back_off. unfold ret at 1.
  cbv beta iota zeta. simpl MarkovModel.is_empty. cbv iota.
  unfold bind at 1.
  rewrite get_overall_probabilities_healthy by exact Hf.
  unfold finish_step, bind, emit.
  destruct (overall_probabilities (working w)); reflexivity.
Qed.

(** C3. Back-off order. In a generation step on a healthy store, from a
    context [c] of 1 to 13 characters, the contexts looked up are [c],
    [c] without its leading character, and so on, in that order, up to
    the first one with a stored distribution, or down to the last
    character of [c] when there is none ([k] leading characters are
    dropped in all). The step then ends as [finish_step] says: it samples
    from the distribution of that context; only when the one-character
    context is unseen too does it ask for the overall distribution and
    sample from it; only when that is empty as well does it append a
    space, and the sampler is not called. *)
Theorem generate_step_back_off_order (result c : str) (w : world) :
  faults w = None -> 1 <= length c <= 13 ->
  exists k,
    let kept := skipn k c in
    let probs := stored_for (working w) kept in
    let overall := overall_probabilities (working w) in
    k < length c
    /\ (forall j, j < k -> stored_for (working w) (skipn j c) = [])
    /\ (probs = [] -> length kept = 1)
    /\ MarkovModel.generate_step result c w
       = finish_step result kept probs overall (log (back_off_queries c k) w)
    /\ (probs = [] -> overall = [] ->
        MarkovModel.generate_step result c w
        = (Ok (result ++ [space], suffix_from_neg 13 (kept ++ [space])),
           log (back_off_queries c k ++ [SqlSelect overall_tbl None]) w)).
Proof.
  intros Hf Hc.
  destruct (generate_step_healthy result c w Hf Hc)
    as [k [Hk [Hbefore [Hlast Hrun]]]].
  exists k. cbv zeta. split; [exact Hk|]. split; [exact Hbefore|].
  split; [|split; [exact Hrun|]].
  - intros H. specialize (Hlast H). rewrite length_skipn. lia.
  - intros Hp Ho. rewrite Hrun, Hp, Ho. unfold finish_step, bind, emit.
    now rewrite log_log.
Qed.

Lemma generate_step_back_off_order_witness :
  faults stored_world = None
  /\ 1 <= length (s_m ++ s_a) <= 13
  /\ exists k,
       let kept := skipn k (s_m ++ s_a) in
       let probs := stored_for (working stored_world) kept in
       let overall := overall_probabilities (working stored_world) in
       k < length (s_m ++ s_a)
       /\ (forall j, j < k ->
           stored_for (working stored_world) (skipn j (s_m ++ s_a)) = [])
       /\ (probs = [] -> length kept = 1)
       /\ MarkovModel.generate_step [] (s_m ++ s_a) stored_world
          = finish_step [] kept probs overall
              (log (back_off_queries (s_m ++ s_a) k) stored_world)
       /\ (probs = [] -> overall = [] ->
           MarkovModel.generate_step [] (s_m ++ s_a) stored_world
           = (Ok ([] ++ [space], suffix_from_neg 13 (kept ++ [space])),
              log (back_off_queries (s_m ++ s_a) k
                   ++ [SqlSelect overall_tbl None]) stored_world)).
Proof.
  assert (Hf : faults stored_world = None) by reflexivity.
  assert (Hc : 1 <= length (s_m ++ s_a) <= 13) by (simpl; lia).
  split; [exact Hf|]. split; [exact Hc|].
  exact (generate_step_back_off_order [] (s_m ++ s_a) stored_world Hf Hc).
Defined.

(** ** The weights handed to the sampler *)






(** ** Generation always returns *)



















(** ** The examples of the specification *)

(** Counting "мама" at order 1 gives [{"м": {"а": 2}, "а": {"м": 1}}]. *)
Example count_mama :
  count_markov_frequencies mama 1
  = [(s_m, [(s_a, 2%Z)]); (s_a, [(s_m, 1%Z)])].
Proof. reflexivity. Qed.

(** "Привет, МИР!!" normalizes to "привет, мир!!". *)
Example normalize_privet :
  normalize_text lower_basic privet_mir
  = [0x43f; 0x440; 0x438; 0x432; 0x435; 0x442; 0x2c; 0x20; 0x43c; 0x438; 0x440;
     0x21; 0x21]%N.
Proof. reflexivity. Qed.

(** " Да,  нет" and a line feed: the words are "да," and "нет", and the
    text normalizes to "да, нет". *)
Example words_da_net :
  let text := [0x20; 0x414; 0x430; 0x2c; 0x20; 0x20; 0x43d; 0x435; 0x442;
               0x0a]%N in
  words (lower_basic text)
  = [[0x434; 0x430; 0x2c]; [0x43d; 0x435; 0x442]]%N
  /\ normalize_text lower_basic text
     = [0x434; 0x430; 0x2c; 0x20; 0x43d; 0x435; 0x442]%N.
Proof. split; reflexivity. Qed.

(** With "м" as the only candidate after "а", one step from the seed "а"
    appends "м". *)
Example generate_single_candidate :
  fst (MarkovModel.generate_text s_a 1 stored_world) = Ok (s_a ++ s_m).
Proof. vm_compute. reflexivity. Qed.

(** The seed "ма" is unseen at order 2 and its last character "а" is
    seen at order 1: the order-1 distribution is used, and the overall
    table is not read. *)
Example generate_backs_off :
  fst (MarkovModel.generate_text (s_m ++ s_a) 1 stored_world)
  = Ok (s_m ++ s_a ++ s_m)
  /\ new_events (MarkovModel.generate_text (s_m ++ s_a) 1) stored_world
     = [query_event (s_m ++ s_a); query_event s_a; Sample [s_m] [1%Q]].
Proof. split; vm_compute; reflexivity. Qed.

(** On an empty model every step appends the default space. *)
Example generate_on_empty_model :
  fst (MarkovModel.generate_text s_a 3 (fresh_world 0))
  = Ok (s_a ++ [space; space; space]).
Proof. vm_compute. reflexivity. Qed.

(** A bulk load whose third row fails leaves the durable table as it
    was. *)
Example bulk_failure_keeps_table :
  markov (committed (snd (MarkovDatabase.save_markov_frequencies_bulk
                            1 table_three_rows (with_faults 3 stored_world))))
         1
  = [mkRow s_a s_m 2].
Proof. vm_compute. reflexivity. Qed.

(** * Properties, function by function *)

(** ** Counting, count by count *)

Lemma incr_get_default (k k' : str) (d : dict Z) :
  get_default k' 0%Z (incr k d)
  = (get_default k' 0 d + if str_eqb k k' then 1 else 0)%Z.
Proof.
  unfold incr. destruct (str_eqb k k') eqn:E.
  - apply str_eqb_eq in E. subst k'. now rewrite get_default_set_same.
  - apply str_eqb_neq in E. rewrite get_default_set_other by exact E. lia.
Qed.

Lemma count_overall_fold_at (c : char) (text : str) (acc : dict Z) :
  get_default [c] 0%Z
    (fold_left (fun frequencies x =>
                  if allowed x then incr [x] frequencies else frequencies)
               text acc)
  = (get_default [c] 0 acc
     + if allowed c then Z.of_nat (occurrences c text) else 0)%Z.
Proof.
  revert acc. unfold occurrences.
  induction text as [|x text IH]; intros acc; simpl fold_left.
  - simpl. destruct (allowed c); lia.
  - rewrite IH. simpl filter. destruct (N.eqb c x) eqn:E.
    + apply N.eqb_eq in E. subst x. destruct (allowed c) eqn:Ha.
      * rewrite incr_get_default, str_eqb_refl. simpl length. lia.
      * lia.
    + destruct (allowed x) eqn:Hx; [|reflexivity].
      rewrite incr_get_default.
      assert (str_eqb [x] [c] = false) as ->.
      { apply str_eqb_neq. apply N.eqb_neq in E. congruence. }
      lia.
Qed.

(** X1. For every text, normalized or not, and every character [c], the
    count [count_overall_frequencies] stores for [c] is the number of
    occurrences of [c] in the text when [c] is an Alphabet character, and
    nothing (read as 0) when it is not. *)
Theorem count_overall_frequencies_at (text : str) (c : char) :
  get_default [c] 0%Z (count_overall_frequencies text)
  = if allowed c then Z.of_nat (occurrences c text) else 0%Z.
Proof.
  unfold count_overall_frequencies. rewrite count_overall_fold_at.
  reflexivity.
Qed.

Lemma count_step_at (text : str) (n : nat) (d : dict (dict Z))
    (i : nat) (c s : str) :
  count_of (count_step text n d i) c s
  = (count_of d c s
     + if str_eqb (slice text i (i + n)) c
          && str_eqb [nth (i + n) text space] s
          && (forallb allowed (slice text i (i + n))
              && allowed (nth (i + n) text space))
       then 1 else 0)%Z.
Proof.
  unfold count_step, count_of.
  destruct (forallb allowed (slice text i (i + n))
            && allowed (nth (i + n) text space)).
  - rewrite andb_true_r.
    destruct (str_eqb (slice text i (i + n)) c) eqn:E.
    + apply str_eqb_eq in E. subst c.
      rewrite get_default_set_same, incr_get_default. reflexivity.
    + apply str_eqb_neq in E.
      rewrite get_default_set_other by exact E. simpl. lia.
  - rewrite andb_false_r. lia.
Qed.

(** X2. For every text, order [n], context [c] and symbol [s], the count
    that [count_markov_frequencies] stores for the pair is the number of
    positions at which [c] is followed by [s], both made of Alphabet
    characters; pairs that never occur have no entry (read as 0). *)
Theorem count_markov_frequencies_at (text : str) (n : nat) (c s : str) :
  count_of (count_markov_frequencies text n) c s
  = Z.of_nat (pair_occurrences text n c s).
Proof.
  unfold count_markov_frequencies, pair_occurrences.
  generalize (seq 0 (length text - n)). intros l.
  set (p := fun i =>
              str_eqb (slice text i (i + n)) c
              && str_eqb [nth (i + n) text space] s
              && (forallb allowed (slice text i (i + n))
                  && allowed (nth (i + n) text space))).
  assert (H : forall d,
             count_of (fold_left (count_step text n) l d) c s
             = (count_of d c s + Z.of_nat (length (filter p l)))%Z).
  { induction l as [|i l IH]; intros d; simpl fold_left.
    - simpl. lia.
    - rewrite IH, count_step_at. fold (p i). cbn [filter].
      destruct (p i); simpl length; lia. }
  rewrite H. unfold count_of. simpl. reflexivity.
Qed.

(** ** The invariants of a counted table *)

Lemma set_Forall {V} (P : str * V -> Prop) (k : str) (v : V) (d : dict V) :
  Forall P d -> P (k, v) -> Forall P (set k v d).
Proof.
  intros Hd Hk. induction Hd as [|[k' v'] d Hp Hd IH]; simpl.
  - repeat constructor. exact Hk.
  - destruct (str_eqb k k') eqn:E.
    + apply str_eqb_eq in E. subst k'. constructor; assumption.
    + constructor; assumption.
Qed.

Lemma keys_set_in {V} (k k' : str) (v : V) (d : dict V) :
  In k' (keys (set k v d)) -> In k' (keys d) \/ k' = k.
Proof.
  induction d as [|[k0 v0] d IH]; simpl.
  - intros [H|[]]; auto.
  - destruct (str_eqb k k0); simpl; intros [H|H]; auto.
    destruct (IH H); auto.
Qed.

Lemma keys_set_unique {V} (k : str) (v : V) (d : dict V) :
  NoDup (keys d) -> NoDup (keys (set k v d)).
Proof.
  induction d as [|[k0 v0] d IH]; simpl; intros H.
  - repeat constructor. intros [].
  - inversion H as [|? ? Hk0 Hd]; subst.
    destruct (str_eqb k k0) eqn:E; simpl.
    + constructor; assumption.
    + constructor; [|now apply IH].
      intros Hin. apply keys_set_in in Hin. destruct Hin as [Hin|Hin].
      * contradiction.
      * apply str_eqb_neq in E. congruence.
Qed.

Lemma get_In {V} (k : str) (v : V) (d : dict V) :
  get k d = Some v -> In (k, v) d.
Proof.
  induction d as [|[k' v'] d IH]; simpl; [discriminate|].
  destruct (str_eqb k k') eqn:E.
  - apply str_eqb_eq in E. subst k'. intros H. inversion H. now left.
  - intros H. right. now apply IH.
Qed.

Lemma slice_length (text : str) (i n : nat) :
  i + n <= length text -> length (slice text i (i + n)) = n.
Proof.
  intros H. unfold slice. rewrite length_firstn, length_skipn. lia.
Qed.

Lemma incr_symbols_ok (c : char) (symbols : dict Z) :
  allowed c = true -> symbols_ok symbols -> symbols_ok (incr [c] symbols).
Proof.
  intros Hc [Hn [Hk Hv]]. unfold incr.
  assert (Hge : (0 <= get_default [c] 0 symbols)%Z).
  { unfold get_default. destruct (get [c] symbols) as [v|] eqn:E; [|lia].
    apply get_In in E. unfold values in Hv. rewrite Forall_map in Hv.
    rewrite Forall_forall in Hv. specialize (Hv _ E). simpl in Hv. lia. }
  split; [now apply keys_set_unique|]. split.
  - unfold keys in *. rewrite Forall_map in *.
    apply set_Forall; [exact Hk|]. simpl. now exists c.
  - unfold values in *. rewrite Forall_map in *.
    apply set_Forall; [exact Hv|]. simpl. lia.
Qed.

Lemma count_step_ok (text : str) (n : nat) (d : dict (dict Z)) (i : nat) :
  i + n < length text -> table_ok n d -> table_ok n (count_step text n d i).
Proof.
  intros Hi [Hn Hd]. unfold count_step.
  destruct (forallb allowed (slice text i (i + n))
            && allowed (nth (i + n) text space)) eqn:E; [|now split].
  apply andb_true_iff in E. destruct E as [Hctx Hnext].
  split; [now apply keys_set_unique|].
  apply set_Forall; [exact Hd|]. simpl.
  split; [apply slice_length; lia|]. split.
  - unfold all_allowed. apply Forall_forall.
    rewrite forallb_forall in Hctx. exact Hctx.
  - apply incr_symbols_ok; [exact Hnext|].
    unfold get_default.
    match goal with
    | |- context [@get ?V ?k d] =>
        destruct (@get V k d) as [symbols|] eqn:G
    end.
    + apply get_In in G. rewrite Forall_forall in Hd.
      destruct (Hd _ G) as (_ & _ & H). exact H.
    + repeat split; constructor.
Qed.

Lemma count_markov_frequencies_ok (text : str) (n : nat) :
  table_ok n (count_markov_frequencies text n).
Proof.
  unfold count_markov_frequencies.
  assert (Hl : Forall (fun i => i + n < length text)
                      (seq 0 (length text - n))).
  { eapply Forall_impl; [|apply seq_below]. simpl. intros i Hi. lia. }
  assert (H0 : table_ok n []) by (split; constructor).
  revert H0. generalize (@nil (str * dict Z)).
  induction Hl as [|i l Hi _ IH]; intros d Hd; simpl fold_left.
  - exact Hd.
  - apply IH. now apply count_step_ok.
Qed.

(** X3. For every text and every order [n], the table returned by
    [count_markov_frequencies] keeps the invariants of an order table:
    each context is made of exactly [n] Alphabet characters, each symbol
    is a single Alphabet character, each count is positive, and no key
    occurs twice at either level. *)
Theorem count_markov_frequencies_order_table (text : str) (n : nat) :
  order_table n (count_markov_frequencies text n)
  /\ well_formed (count_markov_frequencies text n).
Proof.
  destruct (count_markov_frequencies_ok text n) as [Hn Hd].
  split.
  - unfold order_table. eapply Forall_impl; [|exact Hd].
    intros p (Hlen & Hall & _ & Hk & Hv). auto.
  - split; [exact Hn|]. unfold values. rewrite Forall_map.
    eapply Forall_impl; [|exact Hd].
    intros p (_ & _ & Hu & _). exact Hu.
Qed.

(** ** The total of a counted table *)

Lemma total_count_set (k : str) (v : dict Z) (d : dict (dict Z)) :
  total_count (set k v d)
  = (total_count d - sum_values (get_default k [] d) + sum_values v)%Z.
Proof.
  unfold total_count, get_default.
  induction d as [|[k' v'] d IH]; simpl.
  - change (sum_values []) with 0%Z. lia.
  - destruct (str_eqb k k') eqn:E; simpl.
    + lia.
    + rewrite IH. lia.
Qed.

(** X4. On a text of Alphabet characters only, the counts of the whole
    order-[n] table add up to [len(text) - n] (to 0 when the text has at
    most [n] characters): every position that has a follower is counted
    once. *)
Theorem count_markov_frequencies_grand_total (text : str) (n : nat) :
  all_allowed text ->
  total_count (count_markov_frequencies text n)
  = Z.of_nat (length text - n).
Proof.
  intros Hall. unfold count_markov_frequencies.
  assert (Hl : Forall (fun i => i + n < length text)
                      (seq 0 (length text - n))).
  { eapply Forall_impl; [|apply seq_below]. simpl. intros i Hi. lia. }
  assert (H : forall l,
             Forall (fun i => i + n < length text) l ->
             forall d,
               total_count (fold_left (count_step text n) l d)
               = (total_count d + Z.of_nat (length l))%Z).
  { intros l Hl'. induction Hl' as [|i l Hi _ IH]; intros d; simpl fold_left.
    - simpl. lia.
    - rewrite IH. unfold count_step.
      rewrite slice_allowed by assumption.
      rewrite nth_allowed by assumption. simpl andb. cbv iota.
      rewrite total_count_set, sum_values_incr. simpl length. lia. }
  rewrite (H _ Hl), length_seq. reflexivity.
Qed.

Lemma count_markov_frequencies_grand_total_witness :
  all_allowed mama
  /\ total_count (count_markov_frequencies mama 2)
     = Z.of_nat (length mama - 2).
Proof.
  assert (H : all_allowed mama) by (repeat constructor).
  split; [exact H|].
  exact (count_markov_frequencies_grand_total mama 2 H).
Defined.

(** ** What normalization keeps *)

Lemma letters_replace (s : str) :
  letters (map (fun c => if allowed c then c else space) s) = letters s.
Proof.
  unfold letters. induction s as [|c s IH]; simpl; [reflexivity|].
  destruct (allowed c) eqn:E.
  - rewrite E. simpl. now rewrite IH.
  - simpl. exact IH.
Qed.

Lemma letters_sub_runs (s : str) (in_run : bool) :
  letters (sub_runs in_run s) = letters s.
Proof.
  unfold letters. revert in_run.
  induction s as [|c s IH]; intros in_run; simpl; [reflexivity|].
  destruct (isspace c) eqn:E.
  - rewrite andb_false_r. destruct in_run; simpl; apply IH.
  - simpl. rewrite E. now rewrite IH.
Qed.

Lemma letters_dropwhile (s : str) :
  letters (dropwhile isspace s) = letters s.
Proof.
  unfold letters. induction s as [|c s IH]; simpl; [reflexivity|].
  destruct (isspace c) eqn:E.
  - now rewrite andb_false_r.
  - simpl. now rewrite E.
Qed.

Lemma letters_rev (s : str) : letters (rev s) = rev (letters s).
Proof.
  unfold letters. induction s as [|c s IH]; simpl; [reflexivity|].
  rewrite filter_app, IH. simpl.
  destruct (allowed c && negb (isspace c)); simpl;
    [reflexivity | now rewrite app_nil_r].
Qed.

Lemma letters_strip (s : str) : letters (strip s) = letters s.
Proof.
  unfold strip.
  rewrite letters_rev, letters_dropwhile, letters_rev, rev_involutive.
  apply letters_dropwhile.
Qed.

Lemma letters_normalize (lower : str -> str) (t : str) :
  letters (normalize_text lower t) = letters (lower t).
Proof.
  unfold normalize_text, re_sub_spaces.
  now rewrite letters_strip, letters_sub_runs, letters_replace.
Qed.

(** X5. Normalization neither loses, adds nor reorders letters and
    punctuation: the Alphabet characters other than the space are the same
    sequence in the output as in the lower-cased input. Only the
    separators between them change. *)
Theorem normalize_text_keeps_letters (lower : str -> str) (t : str) :
  letters (normalize_text lower t) = letters (lower t)
  /\ filter (fun c => negb (N.eqb c space)) (normalize_text lower t)
     = letters (lower t).
Proof.
  split; [apply letters_normalize|].
  rewrite <- letters_normalize.
  destruct (normalize_text_normal_form lower t) as [Hall _].
  unfold letters.
  induction Hall as [|c s Hc _ IH]; simpl; [reflexivity|].
  rewrite Hc, IH. simpl.
  destruct (N.eqb c space) eqn:E.
  - apply N.eqb_eq in E. subst c. reflexivity.
  - destruct (isspace c) eqn:Es; [|reflexivity].
    apply N.eqb_neq in E. now apply allowed_isspace in Es.
Qed.

(** X6. The output of [normalize_text] is the empty string exactly when
    the lower-cased input holds no Alphabet character other than the
    space: a text of digits, Latin letters or white space only normalizes
    to nothing. *)
Theorem normalize_text_empty_iff (lower : str -> str) (t : str) :
  normalize_text lower t = []
  <-> forall c, In c (lower t) -> allowed c = false \/ c = space.
Proof.
  split.
  - intros Hout c Hc.
    pose proof (letters_normalize lower t) as H. rewrite Hout in H.
    simpl in H. symmetry in H. unfold letters in H.
    destruct (allowed c) eqn:Ea; [right | now left].
    destruct (isspace c) eqn:Es; [now apply allowed_isspace|].
    assert (Hin : In c (filter (fun c => allowed c && negb (isspace c))
                               (lower t))).
    { apply filter_In. split; [exact Hc|]. now rewrite Ea, Es. }
    rewrite H in Hin. destruct Hin.
  - intros Hno.
    destruct (normalize_text_normal_form lower t) as [_ [_ [Hh _]]].
    pose proof (letters_normalize lower t) as H.
    assert (Hl : letters (lower t) = []).
    { unfold letters. clear H Hh.
      induction (lower t) as [|c s IH]; simpl; [reflexivity|].
      destruct (Hno c (or_introl eq_refl)) as [Ha|Hs].
      - rewrite Ha. simpl. apply IH. intros x Hx. apply Hno. now right.
      - subst c. simpl. apply IH. intros x Hx. apply Hno. now right. }
    rewrite Hl in H.
    destruct (normalize_text lower t) as [|c out] eqn:E; [reflexivity|].
    exfalso. simpl in Hh.
    destruct (normalize_text_normal_form lower t) as [Hall _].
    rewrite E in Hall. inversion Hall as [|? ? Hc _]; subst.
    unfold letters in H. simpl in H. rewrite Hc, Hh in H. discriminate H.
Qed.

(** ** Invariants of the store operations *)

Lemma invariant_ret {A} (J : world -> Prop) (a : A) : invariant J (ret a).
Proof. intros w r w' HJ H. inversion H; subst. exact HJ. Qed.

Lemma invariant_raise {A} (J : world -> Prop) (e : exn) :
  invariant J (@raise A e).
Proof. intros w r w' HJ H. inversion H; subst. exact HJ. Qed.

Lemma invariant_bind {A B} (J : world -> Prop) (m : M A) (k : A -> M B) :
  invariant J m -> (forall a, invariant J (k a)) -> invariant J (bind m k).
Proof.
  intros Hm Hk w r w' HJ H. unfold bind in H.
  destruct (m w) as [[a|e] w1] eqn:E.
  - exact (Hk a _ _ _ (Hm _ _ _ HJ E) H).
  - inversion H; subst. exact (Hm _ _ _ HJ E).
Qed.

Lemma invariant_try_except {A} (J : world -> Prop)
    (body : M A) (handler : exn -> M A) :
  invariant J body -> (forall e, invariant J (handler e)) ->
  invariant J (try_except body handler).
Proof.
  intros Hb Hh w r w' HJ H. unfold try_except in H.
  destruct (body w) as [[a|e] w1] eqn:E.
  - inversion H; subst. exact (Hb _ _ _ HJ E).
  - exact (Hh e _ _ _ (Hb _ _ _ HJ E) H).
Qed.

Lemma invariant_for_each {A} (J : world -> Prop)
    (l : list A) (body : A -> M unit) :
  (forall x, invariant J (body x)) -> invariant J (for_each l body).
Proof.
  intros Hb. induction l as [|x l IH]; simpl.
  - apply invariant_ret.
  - apply invariant_bind; auto.
Qed.

Section TableInvariants.
Variable P : tables -> tables -> Prop.

Lemma invariant_emit (e : event) : invariant (on_tables P) (emit e).
Proof. intros w r w' HJ H. inversion H; subst. exact HJ. Qed.

Lemma invariant_storage_action : invariant (on_tables P) storage_action.
Proof.
  intros w r w' HJ H. unfold storage_action in H.
  destruct (faults w) as [[|k]|]; inversion H; subst; exact HJ.
Qed.

Lemma invariant_require_table (n : nat) :
  invariant (on_tables P) (require_table n).
Proof.
  unfold require_table. destruct (table_exists n);
    [apply invariant_ret | apply invariant_raise].
Qed.

Lemma invariant_read_working {A} (f : tables -> A) :
  invariant (on_tables P) (read_working f).
Proof. intros w r w' HJ H. inversion H; subst. exact HJ. Qed.

Lemma invariant_random : invariant (on_tables P) random.
Proof. intros w r w' HJ H. inversion H; subst. exact HJ. Qed.

Lemma invariant_modify_working (f : tables -> tables) :
  (forall c t, P c t -> P c (f t)) ->
  invariant (on_tables P) (modify_working f).
Proof.
  intros Hf w r w' HJ H. inversion H; subst. unfold on_tables. simpl.
  now apply Hf.
Qed.

Lemma invariant_commit :
  (forall c t, P c t -> P t t) -> invariant (on_tables P) commit.
Proof.
  intros Hc. unfold commit.
  apply invariant_bind; [apply invariant_emit | intros _].
  apply invariant_bind; [apply invariant_storage_action | intros _].
  intros w r w' HJ H. inversion H; subst. unfold on_tables. simpl.
  exact (Hc _ _ HJ).
Qed.

Lemma invariant_rollback :
  (forall c t, P c t -> P c c) -> invariant (on_tables P) rollback.
Proof.
  intros Hc. unfold rollback.
  apply invariant_bind; [apply invariant_emit | intros _].
  intros w r w' HJ H. inversion H; subst. unfold on_tables. simpl.
  exact (Hc _ _ HJ).
Qed.

Lemma invariant_insert_row (n : nat) (r : row) :
  (forall c t rows, P c t -> P c (set_markov n rows t)) ->
  invariant (on_tables P) (insert_row n r).
Proof.
  intros Hs. unfold insert_row.
  apply invariant_bind; [apply invariant_storage_action | intros _].
  apply invariant_bind; [apply invariant_read_working | intros rows].
  destruct (existsb (same_key r) rows); [apply invariant_raise|].
  apply invariant_modify_working. intros c t. apply Hs.
Qed.

(** Both load strategies keep every property of the tables that
    writing to table [n], committing and rolling back keep. *)
Lemma invariant_save (n : nat) (T : dict (dict Z))
    (save : nat -> dict (dict Z) -> M unit) :
  save = MarkovDatabase.save_markov_frequencies
  \/ save = MarkovDatabase.save_markov_frequencies_bulk ->
  (forall c t rows, P c t -> P c (set_markov n rows t)) ->
  (forall c t, P c t -> P t t) ->
  (forall c t, P c t -> P c c) ->
  invariant (on_tables P) (save n T).
Proof.
  intros Hsave Hs Hc Hr.
  assert (Htr : invariant (on_tables P) (truncate_markov n)).
  { unfold truncate_markov.
    apply invariant_bind; [apply invariant_emit | intros _].
    apply invariant_bind; [apply invariant_storage_action | intros _].
    apply invariant_bind; [apply invariant_require_table | intros _].
    apply invariant_modify_working. intros c t. apply Hs. }
  assert (Hrows : forall rows,
             invariant (on_tables P) (for_each rows (insert_row n))).
  { intros rows. apply invariant_for_each. intros r.
    now apply invariant_insert_row. }
  assert (Hh : forall e : exn,
             invariant (on_tables P) (rollback ;; @raise unit e)).
  { intros e. apply invariant_bind; [now apply invariant_rollback|].
    intros _. apply invariant_raise. }
  destruct Hsave; subst save.
  - unfold MarkovDatabase.save_markov_frequencies.
    apply invariant_try_except; [|exact Hh].
    apply invariant_bind; [exact Htr | intros _]. cbv zeta.
    unfold MarkovDatabase.save_batches. apply invariant_for_each. intros i.
    apply invariant_bind; [|intros _; now apply invariant_commit].
    unfold execute_batch.
    apply invariant_bind; [apply invariant_emit | intros _].
    apply invariant_bind; [apply invariant_require_table | intros _].
    apply Hrows.
  - unfold MarkovDatabase.save_markov_frequencies_bulk.
    apply invariant_try_except; [|exact Hh].
    apply invariant_bind; [exact Htr | intros _]. cbv zeta.
    apply invariant_bind; [|intros _; now apply invariant_commit].
    unfold copy_expert.
    apply invariant_bind; [apply invariant_emit | intros _].
    apply invariant_bind; [apply invariant_require_table | intros _].
    apply Hrows.
Qed.
End TableInvariants.

Lemma same_elsewhere_set_markov (n : nat) (rows : list row) (t0 t : tables) :
  same_elsewhere n t0 t -> same_elsewhere n t0 (set_markov n rows t).
Proof.
  intros [Ho Hm]. split; [exact Ho|].
  intros m Hne. simpl. apply Nat.eqb_neq in Hne. rewrite Hne.
  apply Hm. now apply Nat.eqb_neq.
Qed.

(** X7. Replacing the table of order [n], by either strategy and
    whatever the outcome (success, or a failure at any point), changes
    no other table: when the call starts from a clean transaction, every
    other order table and the overall table are afterwards, in the
    durable content and in the connection's view, what they were. *)
Theorem save_leaves_other_tables
    (save : nat -> dict (dict Z) -> M unit)
    (n : nat) (T : dict (dict Z)) (w w' : world) (r : outcome unit) :
  save = MarkovDatabase.save_markov_frequencies
  \/ save = MarkovDatabase.save_markov_frequencies_bulk ->
  working w = committed w ->
  save n T w = (r, w') ->
  same_elsewhere n (committed w) (committed w')
  /\ same_elsewhere n (committed w) (working w').
Proof.
  intros Hsave Hclean Hrun.
  set (P := fun c t : tables =>
              same_elsewhere n (committed w) c
              /\ same_elsewhere n (committed w) t).
  assert (Hinv : invariant (on_tables P) (save n T)).
  { apply invariant_save; [exact Hsave | | |]; unfold P.
    - intros c t rows [Hc Ht]. split; [exact Hc|].
      now apply same_elsewhere_set_markov.
    - intros c t [_ Ht]. now split.
    - intros c t [Hc _]. now split. }
  apply (Hinv w r w'); [|exact Hrun].
  unfold on_tables, P. rewrite Hclean.
  split; split; auto.
Qed.

Lemma save_leaves_other_tables_witness :
  let w := with_faults 3 stored_world in
  let run := MarkovDatabase.save_markov_frequencies 2 table_three_rows w in
  working w = committed w
  /\ same_elsewhere 2 (committed w) (committed (snd run))
  /\ same_elsewhere 2 (committed w) (working (snd run)).
Proof.
  intros w run.
  assert (Hclean : working w = committed w) by reflexivity.
  split; [exact Hclean|].
  exact (save_leaves_other_tables MarkovDatabase.save_markov_frequencies
           2 table_three_rows w (snd run) (fst run)
           (or_introl eq_refl) Hclean (surjective_pairing run)).
Defined.

(** ** The batched strategy under failure *)

Lemma insert_row_append (n : nat) (r : row) (w w' : world) :
  insert_row n r w = (Ok tt, w') ->
  markov (working w') n = markov (working w) n ++ [r]
  /\ committed w' = committed w.
Proof.
  unfold insert_row, bind, storage_action, read_working, modify_working,
    raise.
  destruct (faults w) as [[|k]|]; simpl; try discriminate;
    destruct (existsb (same_key r) (markov (working w) n)); try discriminate;
    intros H; inversion H; subst; simpl; rewrite Nat.eqb_refl; auto.
Qed.

Lemma insert_rows_append (n : nat) (rows : list row) :
  forall w w',
    for_each rows (insert_row n) w = (Ok tt, w') ->
    markov (working w') n = markov (working w) n ++ rows
    /\ committed w' = committed w.
Proof.
  induction rows as [|r rows IH]; intros w w' H; simpl in H.
  - inversion H; subst. now rewrite app_nil_r.
  - unfold bind in H.
    destruct (insert_row n r w) as [[[]|e] w1] eqn:E; [|discriminate].
    apply insert_row_append in E. destruct E as [Em Ec].
    apply IH in H. destruct H as [Hm Hc].
    rewrite Hm, Em, Hc, Ec, <- app_assoc. auto.
Qed.

Lemma execute_batch_append (n : nat) (batch : list row) (w w' : world) :
  execute_batch n batch w = (Ok tt, w') ->
  markov (working w') n = markov (working w) n ++ batch
  /\ committed w' = committed w.
Proof.
  unfold execute_batch, bind, emit, require_table.
  destruct (table_exists n); [|discriminate].
  unfold ret. intros H. apply insert_rows_append in H. exact H.
Qed.

Lemma commit_outcome (w w' : world) (r : outcome unit) :
  commit w = (r, w') ->
  (r = Ok tt /\ committed w' = working w /\ working w' = working w)
  \/ ((exists e, r = Raise e) /\ committed w' = committed w).
Proof.
  unfold commit, bind, emit, storage_action. simpl.
  destruct (faults w) as [[|k]|]; intros H; inversion H; subst; simpl;
    first [left; now auto | right; split; [eexists; reflexivity | reflexivity]].
Qed.

Lemma save_chunks_durable (n step : nat) (data : list row) (c0 : tables)
    (m : nat) :
  forall (a : nat) (w w' : world) (r : outcome unit),
    markov (working w) n = firstn (a * step) data ->
    whole_batches n step data c0 (committed w) ->
    for_each (map (fun k => k * step) (seq a m))
             (fun i => execute_batch n (firstn step (skipn i data)) ;; commit)
             w
    = (r, w') ->
    whole_batches n step data c0 (committed w').
Proof.
  induction m as [|m IH]; intros a w w' r Hm Hc H.
  - simpl in H. inversion H; subst. exact Hc.
  - simpl seq in H. simpl map in H. simpl for_each in H.
    unfold bind at 1 in H. unfold bind at 1 in H.
    destruct (execute_batch n (firstn step (skipn (a * step) data)) w)
      as [[[]|e] w1] eqn:E1.
    + apply execute_batch_append in E1. destruct E1 as [Em1 Ec1].
      destruct (commit w1) as [r2 w2] eqn:E2.
      destruct (commit_outcome _ _ _ E2) as [[-> [Ec2 Ew2]]|[[e ->] Ec2]].
      * apply (IH (S a) w2 w' r); [| |exact H].
        -- rewrite Ew2, Em1, Hm, <- firstn_add. f_equal. lia.
        -- right. exists (S a). split; [lia|].
           rewrite Ec2, Em1, Hm, <- firstn_add. f_equal. lia.
      * inversion H; subst. rewrite Ec2, Ec1. exact Hc.
    + inversion H; subst.
      pose proof (keeps_execute_batch n _ _ _ _ E1) as Ec1.
      rewrite Ec1. exact Hc.
Qed.

(** Whatever the error [save_markov_frequencies] ends in, the durable
    content is either untouched or holds, as table [n], the first [k]
    whole batches of the new rows, for some [k >= 1]; the connection is
    rolled back to that content. *)
Lemma batched_load_failure_durable
    (n : nat) (T : dict (dict Z)) (w w' : world) (e : exn) :
  MarkovDatabase.save_markov_frequencies n T w = (Raise e, w') ->
  working w' = committed w'
  /\ (committed w' = committed w
      \/ exists k,
           0 < k
           /\ markov (committed w') n
              = firstn (k * MarkovDatabase.batch_size)
                       (MarkovDatabase.rows_of T)).
Proof.
  unfold MarkovDatabase.save_markov_frequencies, try_except.
  set (data := MarkovDatabase.rows_of T).
  destruct ((truncate_markov n ;;
             MarkovDatabase.save_batches n MarkovDatabase.batch_size data) w)
    as [[[]|e1] w1] eqn:Hbody; [discriminate|].
  assert (Hc : whole_batches n MarkovDatabase.batch_size data
                 (committed w) (committed w1)).
  { unfold bind in Hbody.
    destruct (truncate_markov n w) as [[[]|e2] w2] eqn:Ht.
    - pose proof (keeps_truncate_markov n _ _ _ Ht) as Hc2.
      assert (Hm2 : markov (working w2) n = []).
      { revert Ht. unfold truncate_markov, bind, emit, storage_action,
          require_table, modify_working. simpl.
        destruct (faults w) as [[|k]|]; try discriminate;
          destruct (table_exists n); try discriminate;
          intros H; inversion H; subst; simpl; now rewrite Nat.eqb_refl. }
      unfold MarkovDatabase.save_batches, MarkovDatabase.range_step in Hbody.
      eapply (save_chunks_durable n MarkovDatabase.batch_size data
                (committed w) _ 0 w2 w1 (Raise e1)); [| |exact Hbody].
      + rewrite Hm2. reflexivity.
      + left. exact Hc2.
    - inversion Hbody; subst. left.
      exact (keeps_truncate_markov n _ _ _ Ht). }
  unfold bind. rewrite rollback_run. unfold raise.
  intros H. inversion H; subst. simpl. split; [reflexivity|].
  exact Hc.
Qed.

Lemma insert_row_budget (n : nat) (r : row) (w : world) (f : nat) :
  faults w = Some (S f) ->
  existsb (same_key r) (markov (working w) n) = false ->
  exists w',
    insert_row n r w = (Ok tt, w')
    /\ faults w' = Some f
    /\ markov (working w') n = markov (working w) n ++ [r]
    /\ committed w' = committed w.
Proof.
  intros Hf Hk.
  unfold insert_row, bind, storage_action, read_working, modify_working.
  rewrite Hf. simpl. rewrite Hk.
  eexists. split; [reflexivity|]. simpl. rewrite Nat.eqb_refl. auto.
Qed.

Lemma insert_row_exhausted (n : nat) (r : row) (w : world) :
  faults w = Some 0 -> insert_row n r w = (Raise StorageError, w).
Proof.
  intros Hf. unfold insert_row, bind, storage_action. now rewrite Hf.
Qed.

(** With a budget of [f] storage actions, [f] rows at least are
    inserted. *)
Lemma insert_rows_budget (n : nat) (rows : list row) :
  forall (w : world) (f : nat),
    faults w = Some f -> length rows <= f ->
    unique_keys (markov (working w) n ++ rows) ->
    exists w',
      for_each rows (insert_row n) w = (Ok tt, w')
      /\ faults w' = Some (f - length rows)
      /\ markov (working w') n = markov (working w) n ++ rows
      /\ committed w' = committed w.
Proof.
  induction rows as [|r rows IH]; intros w f Hf Hlen Hu.
  - exists w. simpl. rewrite Nat.sub_0_r, app_nil_r. auto.
  - simpl in Hlen. destruct f as [|f]; [lia|].
    destruct (insert_row_budget n r w f Hf (unique_keys_fresh _ _ _ Hu))
      as [w1 [H1 [Hf1 [Hm1 Hc1]]]].
    destruct (IH w1 f Hf1) as [w2 [H2 [Hf2 [Hm2 Hc2]]]]; [lia| |].
    { rewrite Hm1, <- app_assoc. exact Hu. }
    exists w2. simpl for_each. rewrite (bind_ok _ _ _ _ _ H1).
    split; [exact H2|]. split; [exact Hf2|]. split; [|congruence].
    rewrite Hm2, Hm1, <- app_assoc. reflexivity.
Qed.

(** With a budget smaller than the number of rows, the insertion fails
    on the storage. *)
Lemma insert_rows_exhausted (n : nat) (rows : list row) :
  forall (w : world) (f : nat),
    faults w = Some f -> f < length rows ->
    unique_keys (markov (working w) n ++ rows) ->
    exists w',
      for_each rows (insert_row n) w = (Raise StorageError, w')
      /\ committed w' = committed w.
Proof.
  induction rows as [|r rows IH]; intros w f Hf Hlen Hu; simpl in Hlen;
    [lia|].
  simpl for_each. destruct f as [|f].
  - exists w. unfold bind. rewrite (insert_row_exhausted n r w Hf). auto.
  - destruct (insert_row_budget n r w f Hf (unique_keys_fresh _ _ _ Hu))
      as [w1 [H1 [Hf1 [Hm1 Hc1]]]].
    destruct (IH w1 f Hf1) as [w2 [H2 Hc2]]; [lia| |].
    { rewrite Hm1, <- app_assoc. exact Hu. }
    exists w2. rewrite (bind_ok _ _ _ _ _ H1). split; [exact H2 | congruence].
Qed.

Lemma execute_batch_budget (n : nat) (batch : list row) (w : world) (f : nat) :
  table_exists n = true -> faults w = Some f -> length batch <= f ->
  unique_keys (markov (working w) n ++ batch) ->
  exists w',
    execute_batch n batch w = (Ok tt, w')
    /\ faults w' = Some (f - length batch)
    /\ markov (working w') n = markov (working w) n ++ batch
    /\ committed w' = committed w.
Proof.
  intros Hn Hf Hlen Hu. unfold execute_batch, bind, emit.
  rewrite require_table_ok by exact Hn.
  apply (insert_rows_budget n batch (log _ w) f); assumption.
Qed.

Lemma execute_batch_exhausted (n : nat) (batch : list row) (w : world)
    (f : nat) :
  table_exists n = true -> faults w = Some f -> f < length batch ->
  unique_keys (markov (working w) n ++ batch) ->
  exists w',
    execute_batch n batch w = (Raise StorageError, w')
    /\ committed w' = committed w.
Proof.
  intros Hn Hf Hlen Hu. unfold execute_batch, bind, emit.
  rewrite require_table_ok by exact Hn.
  apply (insert_rows_exhausted n batch (log _ w) f); assumption.
Qed.

Lemma commit_budget (w : world) (f : nat) :
  faults w = Some (S f) ->
  exists w',
    commit w = (Ok tt, w')
    /\ faults w' = Some f
    /\ working w' = working w /\ committed w' = working w.
Proof.
  intros Hf. unfold commit, bind, emit, storage_action. simpl. rewrite Hf.
  eexists. split; [reflexivity|]. simpl. auto.
Qed.

Lemma commit_exhausted (w : world) :
  faults w = Some 0 ->
  exists w', commit w = (Raise StorageError, w') /\ committed w' = committed w.
Proof.
  intros Hf. unfold commit, bind, emit, storage_action. simpl. rewrite Hf.
  eexists. split; reflexivity.
Qed.

Lemma truncate_markov_budget (n : nat) (w : world) (f : nat) :
  table_exists n = true -> faults w = Some (S f) ->
  exists w',
    truncate_markov n w = (Ok tt, w')
    /\ faults w' = Some f
    /\ markov (working w') n = [] /\ committed w' = committed w.
Proof.
  intros Hn Hf.
  unfold truncate_markov, bind, emit, storage_action, require_table,
    modify_working.
  simpl. rewrite Hf, Hn. simpl.
  eexists. split; [reflexivity|]. simpl. rewrite Nat.eqb_refl. auto.
Qed.

Lemma for_each_app {A} (l1 l2 : list A) (body : A -> M unit) (w : world) :
  for_each (l1 ++ l2) body w = (for_each l1 body ;; for_each l2 body) w.
Proof.
  revert w. induction l1 as [|x l1 IH]; intros w.
  - reflexivity.
  - simpl app. simpl for_each. unfold bind.
    destruct (body x w) as [[[]|e] w1]; [|reflexivity].
    specialize (IH w1). unfold bind in IH. exact IH.
Qed.

Lemma length_batch (step a : nat) (data : list row) :
  length (firstn step (skipn (a * step) data))
  = Nat.min step (length data - a * step).
Proof. now rewrite length_firstn, length_skipn. Qed.

(** [m] whole batches, paid for by the budget, are written and made
    durable one after the other. *)
Lemma save_chunks_budget (n step : nat) (data : list row) (m : nat) :
  table_exists n = true -> unique_keys data ->
  forall (a f : nat) (w : world),
    faults w = Some f ->
    markov (working w) n = firstn (a * step) data ->
    (a + m) * step <= length data ->
    m * (step + 1) <= f ->
    exists w',
      for_each (map (fun k => k * step) (seq a m))
               (fun i => execute_batch n (firstn step (skipn i data)) ;; commit)
               w
      = (Ok tt, w')
      /\ faults w' = Some (f - m * (step + 1))
      /\ markov (working w') n = firstn ((a + m) * step) data
      /\ (m = 0 -> committed w' = committed w)
      /\ (0 < m -> markov (committed w') n = firstn ((a + m) * step) data).
Proof.
  intros Hn Hu. induction m as [|m IH]; intros a f w Hf Hm Hlen Hb.
  - exists w. simpl. rewrite Nat.sub_0_r, Nat.add_0_r.
    repeat split; auto. lia.
  - simpl seq. simpl map. simpl for_each.
    set (batch := firstn step (skipn (a * step) data)).
    assert (Hbl : length batch = step).
    { unfold batch. rewrite length_batch. lia. }
    assert (Hnext : firstn (a * step) data ++ batch = firstn (S a * step) data).
    { unfold batch. rewrite <- firstn_add. f_equal. lia. }
    destruct (execute_batch_budget n batch w f Hn Hf)
      as [w1 [H1 [Hf1 [Hm1 Hc1]]]].
    { lia. }
    { rewrite Hm, Hnext. apply (unique_keys_prefix [] data). exact Hu. }
    rewrite Hbl in Hf1.
    destruct (commit_budget w1 (f - step - 1)) as [w2 [H2 [Hf2 [Hw2 Hc2]]]].
    { rewrite Hf1. f_equal. lia. }
    destruct (IH (S a) (f - step - 1) w2 Hf2)
      as [w3 [H3 [Hf3 [Hm3 [Hz3 Hp3]]]]].
    { rewrite Hw2, Hm1, Hm. exact Hnext. }
    { lia. }
    { lia. }
    exists w3. split; [|split; [|split; [|split]]].
    + unfold bind at 1. unfold bind at 1. rewrite H1, H2. exact H3.
    + rewrite Hf3. f_equal. lia.
    + rewrite Hm3. f_equal. lia.
    + discriminate.
    + intros _. destruct m as [|m].
      * rewrite (Hz3 eq_refl), Hc2, Hm1, Hm, Hnext. f_equal. lia.
      * rewrite Hp3 by lia. f_equal. lia.
Qed.

(** A storage that fails while the batch number [k + 1] is written, or at
    its commit, leaves the first [k] batches durable. *)
Lemma save_batches_fails (n step k f : nat) (data : list row) (w : world) :
  0 < step -> table_exists n = true -> unique_keys data ->
  faults w = Some f -> markov (working w) n = [] ->
  k * step < length data ->
  k * (step + 1) <= f ->
  f <= k * (step + 1) + Nat.min step (length data - k * step) ->
  exists w',
    MarkovDatabase.save_batches n step data w = (Raise StorageError, w')
    /\ (k = 0 -> committed w' = committed w)
    /\ (0 < k -> markov (committed w') n = firstn (k * step) data).
Proof.
  intros Hs Hn Hu Hf Hm Hk Hlo Hhi.
  unfold MarkovDatabase.save_batches, MarkovDatabase.range_step.
  set (B := (length data + step - 1) / step).
  assert (HB : k < B).
  { unfold B. apply (Nat.div_le_lower_bound _ step (S k)); lia. }
  replace B with (k + S (B - S k)) by lia.
  rewrite seq_app, map_app, for_each_app.
  destruct (save_chunks_budget n step data k Hn Hu 0 f w Hf)
    as [w1 [H1 [Hf1 [Hm1 [Hz1 Hp1]]]]]; [now rewrite Hm | simpl; lia | lia |].
  rewrite (bind_ok _ _ _ _ _ H1). simpl plus in *.
  simpl seq. simpl map. simpl for_each.
  set (batch := firstn step (skipn (k * step) data)).
  assert (Hbl : length batch = Nat.min step (length data - k * step)).
  { apply length_batch. }
  assert (Hub : unique_keys (markov (working w1) n ++ batch)).
  { rewrite Hm1. unfold batch. rewrite <- firstn_add.
    apply (unique_keys_prefix [] data). exact Hu. }
  assert (Hdur : forall w', committed w' = committed w1 ->
            (k = 0 -> committed w' = committed w)
            /\ (0 < k -> markov (committed w') n = firstn (k * step) data)).
  { intros w' E. rewrite E. split; [exact Hz1 | exact Hp1]. }
  destruct (Nat.eq_dec (f - k * (step + 1)) (length batch)) as [E|E].
  - destruct (execute_batch_budget n batch w1 _ Hn Hf1)
      as [w2 [H2 [Hf2 [_ Hc2]]]];
      [lia | exact Hub |].
    destruct (commit_exhausted w2) as [w3 [H3 Hc3]].
    { rewrite Hf2. f_equal. lia. }
    exists w3. split; [|apply Hdur; congruence].
    unfold bind at 1. unfold bind at 1. now rewrite H2, H3.
  - destruct (execute_batch_exhausted n batch w1 _ Hn Hf1) as [w2 [H2 Hc2]];
      [lia | exact Hub |].
    exists w2. split; [|now apply Hdur].
    unfold bind at 1. unfold bind at 1. now rewrite H2.
Qed.

(** The batched load with batches of [step] rows, under a storage that
    fails in the batch number [k + 1]. *)
Lemma batched_load_fails (n step k f : nat) (data : list row) (w : world) :
  0 < step -> table_exists n = true -> unique_keys data ->
  faults w = Some f ->
  k * step < length data ->
  1 + k * (step + 1) <= f ->
  f <= 1 + k * (step + 1) + Nat.min step (length data - k * step) ->
  exists w',
    try_except
      (truncate_markov n ;; MarkovDatabase.save_batches n step data)
      (fun e => rollback ;; raise e) w
    = (Raise StorageError, w')
    /\ working w' = committed w'
    /\ (k = 0 -> committed w' = committed w)
    /\ (0 < k ->
        markov (committed w') n = firstn (k * step) data
        /\ length (markov (committed w') n) < length data).
Proof.
  intros Hstep Hn Hu Hf Hk Hlo Hhi.
  destruct f as [|f]; [lia|].
  destruct (truncate_markov_budget n w f Hn Hf) as [w1 [H1 [Hf1 [Hm1 Hc1]]]].
  destruct (save_batches_fails n step k f data w1 Hstep Hn Hu Hf1 Hm1 Hk)
    as [w2 [H2 [Hz2 Hp2]]]; [lia | lia |].
  unfold try_except.
  rewrite (bind_ok _ _ _ _ _ H1), H2.
  unfold bind. rewrite rollback_run. unfold raise.
  eexists. split; [reflexivity|]. simpl.
  split; [reflexivity|]. split.
  - intros E. rewrite (Hz2 E). exact Hc1.
  - intros Hpos. rewrite (Hp2 Hpos). split; [reflexivity|].
    rewrite length_firstn. lia.
Qed.

(** X8. The batched strategy is not all-or-nothing. When the storage
    fails while the batch number [k + 1] is being written, or at its
    commit (the truncation, the first [k] batches of 10000 rows and their
    commits having succeeded), [save_markov_frequencies] ends in the
    storage error, the connection is rolled back, and the durable table
    [n] holds exactly the first [k] batches of the new rows: for [k >= 1]
    the old rows are gone and only a strict prefix of the new ones is in;
    for [k = 0] nothing changed. *)
Theorem batched_load_failure_keeps_whole_batches
    (n k f : nat) (T : dict (dict Z)) (w : world) :
  table_exists n = true -> well_formed T ->
  faults w = Some f ->
  k * MarkovDatabase.batch_size < length (MarkovDatabase.rows_of T) ->
  1 + k * (MarkovDatabase.batch_size + 1) <= f ->
  f <= 1 + k * (MarkovDatabase.batch_size + 1)
       + Nat.min MarkovDatabase.batch_size
                 (length (MarkovDatabase.rows_of T)
                  - k * MarkovDatabase.batch_size) ->
  exists w',
    MarkovDatabase.save_markov_frequencies n T w = (Raise StorageError, w')
    /\ working w' = committed w'
    /\ (k = 0 -> committed w' = committed w)
    /\ (0 < k ->
        markov (committed w') n
        = firstn (k * MarkovDatabase.batch_size) (MarkovDatabase.rows_of T)
        /\ length (markov (committed w') n)
           < length (MarkovDatabase.rows_of T)).
Proof.
  intros Hn HT Hf Hk Hlo Hhi.
  assert (Hstep : 0 < MarkovDatabase.batch_size).
  { unfold MarkovDatabase.batch_size. apply Nat.lt_0_succ. }
  exact (batched_load_fails n MarkovDatabase.batch_size k f
           (MarkovDatabase.rows_of T) w Hstep Hn (rows_of_unique T HT)
           Hf Hk Hlo Hhi).
Qed.

Lemma three_letters_injective (i j : nat) :
  three_letters i = three_letters j -> i = j.
Proof.
  intros H.
  assert (Hl : forall a b, letter a = letter b -> a = b).
  { unfold letter. intros a b E. now apply N.add_cancel_l, Nat2N.inj in E. }
  assert (H1 : i / 1024 = j / 1024)
    by exact (Hl _ _ (f_equal (fun s => nth 0 s 0%N) H)).
  assert (H2 : (i / 32) mod 32 = (j / 32) mod 32)
    by exact (Hl _ _ (f_equal (fun s => nth 1 s 0%N) H)).
  assert (H3 : i mod 32 = j mod 32)
    by exact (Hl _ _ (f_equal (fun s => nth 2 s 0%N) H)).
  pose proof (Nat.div_mod_eq i 32) as Hi.
  pose proof (Nat.div_mod_eq j 32) as Hj.
  pose proof (Nat.div_mod_eq (i / 32) 32) as Hi'.
  pose proof (Nat.div_mod_eq (j / 32) 32) as Hj'.
  rewrite (Nat.Div0.div_div i 32 32) in Hi'.
  rewrite (Nat.Div0.div_div j 32 32) in Hj'.
  change (32 * 32) with 1024 in Hi', Hj'.
  lia.
Qed.

Lemma NoDup_map_injective {A B} (f : A -> B) (l : list A) :
  (forall x y, f x = f y -> x = y) -> NoDup l -> NoDup (map f l).
Proof.
  intros Hf. induction 1 as [|x l Hx _ IH]; simpl; constructor; [|exact IH].
  intros Hin. apply in_map_iff in Hin. destruct Hin as [y [E Hy]].
  apply Hf in E. now subst y.
Qed.

Lemma table_of_contexts_well_formed (m : nat) :
  well_formed (table_of_contexts m).
Proof.
  unfold well_formed, table_of_contexts, keys, values. rewrite !map_map.
  split.
  - apply NoDup_map_injective; [exact three_letters_injective|].
    apply seq_NoDup.
  - apply Forall_forall. intros d Hd. apply in_map_iff in Hd.
    destruct Hd as [i [<- _]]. simpl. repeat constructor. intros [].
Qed.

Lemma table_of_contexts_rows (m : nat) :
  length (MarkovDatabase.rows_of (table_of_contexts m)) = m.
Proof.
  unfold table_of_contexts. rewrite <- (length_seq m 0) at 2.
  generalize (seq 0 m). intros l.
  induction l as [|i l IH]; simpl; [reflexivity | now rewrite IH].
Qed.

Lemma batched_load_failure_keeps_whole_batches_witness :
  let step := MarkovDatabase.batch_size in
  let T := table_of_contexts (S step) in
  let w := with_faults (step + 2) stored_world in
  table_exists 3 = true
  /\ well_formed T
  /\ faults w = Some (step + 2)
  /\ 1 * step < length (MarkovDatabase.rows_of T)
  /\ 1 + 1 * (step + 1) <= step + 2
  /\ step + 2 <= 1 + 1 * (step + 1)
                 + Nat.min step (length (MarkovDatabase.rows_of T) - 1 * step)
  /\ exists w',
       MarkovDatabase.save_markov_frequencies 3 T w = (Raise StorageError, w')
       /\ working w' = committed w'
       /\ (1 = 0 -> committed w' = committed w)
       /\ (0 < 1 ->
           markov (committed w') 3
           = firstn (1 * step) (MarkovDatabase.rows_of T)
           /\ length (markov (committed w') 3)
              < length (MarkovDatabase.rows_of T)).
Proof.
  intros step T w.
  assert (Hn : table_exists 3 = true) by reflexivity.
  assert (HT : well_formed T) by apply table_of_contexts_well_formed.
  assert (Hf : faults w = Some (step + 2)) by reflexivity.
  assert (Hl : length (MarkovDatabase.rows_of T) = S step)
    by apply table_of_contexts_rows.
  assert (Hk : 1 * step < length (MarkovDatabase.rows_of T)) by lia.
  assert (Hlo : 1 + 1 * (step + 1) <= step + 2) by lia.
  assert (Hhi : step + 2
                <= 1 + 1 * (step + 1)
                   + Nat.min step
                             (length (MarkovDatabase.rows_of T) - 1 * step))
    by lia.
  repeat (split; [assumption|]).
  exact (batched_load_failure_keeps_whole_batches 3 1 (step + 2) T w
           Hn HT Hf Hk Hlo Hhi).
Defined.

(** ** The overall table *)

Lemma overall_fresh (cur rest : list (str * Z)) (r : str * Z) :
  NoDup (keys (cur ++ r :: rest)) ->
  existsb (fun r' => str_eqb (fst r) (fst r')) cur = false.
Proof.
  intros H.
  destruct (existsb (fun r' => str_eqb (fst r) (fst r')) cur) eqn:E;
    [|reflexivity].
  exfalso. apply existsb_exists in E. destruct E as [x [Hin Hx]].
  apply str_eqb_eq in Hx.
  unfold keys in H. rewrite map_app in H. simpl in H.
  apply NoDup_remove_2 in H. apply H. apply in_or_app. left.
  rewrite Hx. now apply in_map.
Qed.

Lemma insert_overall_rows_ok (rows : list (str * Z)) :
  forall w,
    faults w = None ->
    NoDup (keys (overall_frequencies (working w) ++ rows)) ->
    exists w',
      for_each rows insert_overall_row w = (Ok tt, w')
      /\ faults w' = None
      /\ overall_frequencies (working w')
         = overall_frequencies (working w) ++ rows.
Proof.
  induction rows as [|r rows IH]; intros w Hf Hu.
  - exists w. rewrite app_nil_r. auto.
  - pose proof (overall_fresh _ _ _ Hu) as Hk.
    set (w1 := mkWorld (committed w)
                 (set_overall (overall_frequencies (working w) ++ [r])
                              (working w))
                 (faults w) (rng w) (drawn w) (trace w)).
    assert (H1 : insert_overall_row r w = (Ok tt, w1)).
    { unfold insert_overall_row.
      rewrite (bind_ok _ _ _ _ _ (storage_action_healthy w Hf)).
      unfold bind, read_working. rewrite Hk. reflexivity. }
    destruct (IH w1 Hf) as [w2 [H2 [Hf2 Hm2]]].
    { simpl. rewrite <- app_assoc. exact Hu. }
    exists w2. simpl for_each. rewrite (bind_ok _ _ _ _ _ H1).
    split; [exact H2|]. split; [exact Hf2|].
    rewrite Hm2. simpl. now rewrite <- app_assoc.
Qed.

Lemma map_items (frequencies : dict Z) :
  map (fun '(symbol, freq) => (symbol, freq)) frequencies = frequencies.
Proof.
  induction frequencies as [|[s f] d IH]; simpl; [reflexivity|].
  now rewrite IH.
Qed.

(** X9. Round trip of the overall table on a working store: after
    [save_overall_frequencies] of a dictionary of counts,
    [get_overall_probabilities] returns its symbols, each mapped to its
    count divided by the sum of all the counts (to 0 when that sum is not
    positive); for the empty dictionary it returns the empty mapping. *)
Theorem overall_round_trip (frequencies : dict Z) (w : world) :
  NoDup (keys frequencies) -> faults w = None ->
  exists w1 w2,
    OverallTable.save_overall_frequencies frequencies w = (Ok tt, w1)
    /\ MarkovDatabase.get_overall_probabilities w1
       = (Ok (relative_frequencies frequencies), w2).
Proof.
  intros Hu Hf.
  set (w0 := mkWorld (committed w) (set_overall [] (working w)) (faults w)
               (rng w) (drawn w) (trace w ++ [SqlTruncate overall_tbl])).
  assert (H0 : truncate_overall w = (Ok tt, w0)).
  { unfold truncate_overall, bind, emit.
    rewrite storage_action_healthy by exact Hf. reflexivity. }
  destruct (insert_overall_rows_ok frequencies
              (log [SqlInsert overall_tbl (length frequencies)] w0) Hf)
    as [w1 [H1 [Hf1 Hm1]]]; [exact Hu|].
  destruct (commit_ok w1 Hf1) as [w2 [H2 [Hf2 Hw2]]].
  exists w2. eexists. split.
  - unfold OverallTable.save_overall_frequencies, try_except, bind.
    rewrite H0. cbv zeta. rewrite map_items.
    unfold execute_batch_overall, bind, emit. rewrite H1, H2. reflexivity.
  - rewrite get_overall_probabilities_healthy by exact Hf2.
    f_equal. f_equal. unfold overall_probabilities.
    rewrite Hw2, Hm1. simpl. now apply probabilities_of_unique.
Qed.

Lemma overall_round_trip_witness :
  NoDup (keys (count_overall_frequencies mama))
  /\ faults stored_world = None
  /\ exists w1 w2,
       OverallTable.save_overall_frequencies
         (count_overall_frequencies mama) stored_world = (Ok tt, w1)
       /\ MarkovDatabase.get_overall_probabilities w1
          = (Ok [(s_m, 1 # 2); (s_a, 1 # 2)], w2).
Proof.
  assert (Hu : NoDup (keys (count_overall_frequencies mama)))
    by (repeat constructor; simpl; intuition discriminate).
  split; [exact Hu|]. split; [reflexivity|].
  exact (overall_round_trip (count_overall_frequencies mama) stored_world
           Hu eq_refl).
Defined.

Lemma keeps_insert_overall_row (r : str * Z) :
  keeps_committed (insert_overall_row r).
Proof.
  unfold insert_overall_row.
  apply keeps_bind; auto with keeps. intros _.
  apply keeps_bind; auto with keeps. intros rows.
  destruct (existsb _ rows); auto with keeps.
Qed.

(** X10. [save_overall_frequencies] is all or nothing: when it ends in
    an error, whatever the storage action that failed, the durable
    content is what it was before the call and the connection is rolled
    back to it. *)
Theorem overall_save_failure_rolls_back
    (frequencies : dict Z) (w w' : world) (e : exn) :
  OverallTable.save_overall_frequencies frequencies w = (Raise e, w') ->
  committed w' = committed w /\ working w' = committed w.
Proof.
  unfold OverallTable.save_overall_frequencies, try_except. cbv zeta.
  rewrite map_items.
  destruct ((truncate_overall ;; execute_batch_overall frequencies ;; commit)
              w) as [[[]|e1] w1] eqn:Hbody; [discriminate|].
  assert (Hc : committed w1 = committed w).
  { unfold bind at 1 in Hbody.
    destruct (truncate_overall w) as [[[]|e2] w2] eqn:Ht.
    - assert (H2 : committed w2 = committed w).
      { revert Ht. apply keeps_bind; auto with keeps. intros _.
        apply keeps_bind; auto with keeps. }
      unfold bind in Hbody.
      destruct (execute_batch_overall frequencies w2)
        as [[[]|e3] w3] eqn:Hb.
      + assert (H3 : committed w3 = committed w2).
        { revert Hb. apply keeps_bind; auto with keeps. intros _.
          apply keeps_for_each. apply keeps_insert_overall_row. }
        apply commit_raise in Hbody. congruence.
      + inversion Hbody; subst.
        assert (H3 : committed w1 = committed w2).
        { revert Hb. apply keeps_bind; auto with keeps. intros _.
          apply keeps_for_each. apply keeps_insert_overall_row. }
        congruence.
    - inversion Hbody; subst.
      revert Ht. apply keeps_bind; auto with keeps. intros _.
      apply keeps_bind; auto with keeps. }
  unfold bind. rewrite rollback_run. unfold raise.
  intros H. inversion H; subst. simpl. auto.
Qed.

Lemma overall_save_failure_rolls_back_witness :
  let w := with_faults 2 stored_world in
  let w' := snd (OverallTable.save_overall_frequencies
                   (count_overall_frequencies mama) w) in
  OverallTable.save_overall_frequencies (count_overall_frequencies mama) w
  = (Raise StorageError, w')
  /\ committed w' = committed w /\ working w' = committed w.
Proof.
  intros w w'.
  assert (H : OverallTable.save_overall_frequencies
                (count_overall_frequencies mama) w
              = (Raise StorageError, w')) by (vm_compute; reflexivity).
  split; [exact H|].
  exact (overall_save_failure_rolls_back
           (count_overall_frequencies mama) w w' StorageError H).
Defined.

(** ** Lookups never fail *)

(** X11. A lookup never raises and never writes: whatever the state of
    the storage, [get_markov_probabilities] returns a mapping and leaves
    the durable and the visible content as they were; when the storage
    fails, or the table does not exist (an order outside 1..13), the
    error is swallowed and the mapping returned is empty, as for an
    unseen context. *)
Theorem get_markov_probabilities_never_raises
    (n : nat) (c : str) (w : world) :
  exists probs w',
    MarkovDatabase.get_markov_probabilities n c w = (Ok probs, w')
    /\ committed w' = committed w
    /\ working w' = working w
    /\ (faults w = Some 0 \/ table_exists n = false -> probs = [])
    /\ (faults w <> Some 0 -> table_exists n = true ->
        probs = stored_probabilities (working w) n c).
Proof.
  unfold MarkovDatabase.get_markov_probabilities, try_except, select_markov,
    bind, emit, storage_action, require_table, read_working, ret, raise,
    stored_probabilities.
  simpl faults.
  destruct (faults w) as [[|k]|]; simpl;
    destruct (table_exists n); simpl;
    try destruct (rows_for (working w) n c);
    eexists; eexists; (split; [reflexivity|]);
    (split; [reflexivity|]); (split; [reflexivity|]);
    (split; [intros [H|H]; first [reflexivity | discriminate H]
            | intros H1 H2;
              first [reflexivity | discriminate H2 | now elim H1]]).
Qed.

(** ** Generation on an empty model *)









(** ** What a generation step appends *)

Lemma generate_step_decompose
    (result c result' c' : str) (w w' : world) :
  MarkovModel.generate_step result c w = (Ok (result', c'), w') ->
  exists p0 w0 kept p1 w1 p2 w2 next,
    MarkovModel.get_probabilities c w = (Ok p0, w0)
    /\ MarkovModel.back_off c p0 w0 = (Ok (kept, p1), w1)
    /\ (if MarkovModel.is_empty p1
        then MarkovDatabase.get_overall_probabilities
        else ret p1) w1 = (Ok p2, w2)
    /\ (if negb (MarkovModel.is_empty p2)
        then choices (keys p2) (values p2)
        else ret [space]) w2 = (Ok next, w')
    /\ result' = result ++ next
    /\ c' = suffix_from_neg 13 (kept ++ next).
Proof.
  unfold MarkovModel.generate_step. unfold bind at 1.
  destruct (MarkovModel.get_probabilities c w) as [[p0|e0] w0] eqn:E0;
    [|discriminate].
  unfold bind at 1.
  destruct (MarkovModel.back_off c p0 w0) as [[[kept p1]|e1] w1] eqn:E1;
    [|discriminate].
  cbv beta iota zeta. unfold bind at 1.
  destruct ((if MarkovModel.is_empty p1
             then MarkovDatabase.get_overall_probabilities
             else ret p1) w1) as [[p2|e2] w2] eqn:E2; [|discriminate].
  unfold bind at 1.
  destruct ((if negb (MarkovModel.is_empty p2)
             then choices (keys p2) (values p2)
             else ret [space]) w2) as [[next|e3] w3] eqn:E3; [|discriminate].
  unfold ret. intros H. inversion H; subst.
  exists p0, w0, kept, p1, w1, p2, w2, next.
  repeat (split; [first [assumption | reflexivity]|]). reflexivity.
Qed.

Lemma back_off_suffix (c : str) :
  forall (probs probs' : dict Q) (kept : str) (w w' : world),
    MarkovModel.back_off c probs w = (Ok (kept, probs'), w') ->
    is_suffix kept c.
Proof.
  induction c as [|x rest IH]; intros probs probs' kept w w' H.
  - inversion H; subst. now exists [].
  - rewrite back_off_cons in H.
    destruct (MarkovModel.is_empty probs && (1 <? length (x :: rest))).
    + unfold bind in H.
      destruct (MarkovModel.get_probabilities rest w) as [[p1|e] w1];
        [|discriminate].
      apply IH in H. destruct H as [pre ->]. now exists (x :: pre).
    + inversion H; subst. now exists [].
Qed.

Lemma suffix_from_neg_suffix (k : nat) (s : str) :
  is_suffix (suffix_from_neg k s) s /\ (0 < k -> length (suffix_from_neg k s) <= k).
Proof.
  unfold suffix_from_neg. destruct k as [|k].
  - split; [now exists [] | lia].
  - split.
    + exists (firstn (length s - S k) s). now rewrite firstn_skipn.
    + intros _. rewrite length_skipn. lia.
Qed.

(** X13. The context stays a window on the output: if before a step the
    context is a suffix of the text produced so far, then after the step
    the text has grown by the appended symbol, and the new context is
    again a suffix of it, of at most 13 characters. (The characters
    dropped by the back-off stay dropped: the new context is taken from
    the shortened context and the new symbol.) *)
Theorem generate_step_context_window
    (result c result' c' : str) (w w' : world) :
  is_suffix c result ->
  MarkovModel.generate_step result c w = (Ok (result', c'), w') ->
  is_suffix c' result'
  /\ length c' <= 13
  /\ exists kept next,
       is_suffix kept c
       /\ result' = result ++ next
       /\ c' = last_chars 13 (kept ++ next).
Proof.
  intros [pre Hpre] H.
  apply generate_step_decompose in H.
  destruct H as (p0 & w0 & kept & p1 & w1 & p2 & w2 & next
                 & _ & Hb & _ & _ & -> & ->).
  apply back_off_suffix in Hb. destruct Hb as [pre' Hc].
  destruct (suffix_from_neg_suffix 13 (kept ++ next)) as [[pre'' Hs] Hl].
  split; [|split].
  - exists (pre ++ pre' ++ pre''). rewrite Hpre, Hc.
    rewrite <- !app_assoc. do 2 f_equal. exact Hs.
  - apply Hl. lia.
  - exists kept, next. split; [now exists pre'|]. split; reflexivity.
Qed.

Lemma generate_step_context_window_witness :
  is_suffix (s_m ++ s_a) (s_m ++ s_a)
  /\ MarkovModel.generate_step (s_m ++ s_a) (s_m ++ s_a) stored_world
     = (Ok (s_m ++ s_a ++ s_m, s_a ++ s_m),
        snd (MarkovModel.generate_step (s_m ++ s_a) (s_m ++ s_a)
                                       stored_world))
  /\ is_suffix (s_a ++ s_m) (s_m ++ s_a ++ s_m)
  /\ length (s_a ++ s_m) <= 13
  /\ exists kept next,
       is_suffix kept (s_m ++ s_a)
       /\ s_m ++ s_a ++ s_m = (s_m ++ s_a) ++ next
       /\ s_a ++ s_m = last_chars 13 (kept ++ next).
Proof.
  assert (Hs : is_suffix (s_m ++ s_a) (s_m ++ s_a)) by (now exists []).
  assert (H : MarkovModel.generate_step (s_m ++ s_a) (s_m ++ s_a) stored_world
              = (Ok (s_m ++ s_a ++ s_m, s_a ++ s_m),
                 snd (MarkovModel.generate_step (s_m ++ s_a) (s_m ++ s_a)
                                                stored_world)))
    by (vm_compute; reflexivity).
  split; [exact Hs|]. split; [exact H|].
  exact (generate_step_context_window _ _ _ _ _ _ Hs H).
Defined.











(** ** A generation step, statement by statement *)














(** ** The shape of a generated text *)







(** ** Training, end to end *)

Lemma invariant_load_bodies (P : tables -> tables -> Prop) (n : nat) :
  (forall c t rows, P c t -> P c (set_markov n rows t)) ->
  (forall c t, P c t -> P t t) ->
  (forall step data,
     invariant (on_tables P)
       (truncate_markov n ;; MarkovDatabase.save_batches n step data))
  /\ (forall data,
        invariant (on_tables P)
          (truncate_markov n ;; copy_expert n data ;; commit)).
Proof.
  intros Hs Hc.
  assert (Htr : invariant (on_tables P) (truncate_markov n)).
  { unfold truncate_markov.
    apply invariant_bind; [apply invariant_emit | intros _].
    apply invariant_bind; [apply invariant_storage_action | intros _].
    apply invariant_bind; [apply invariant_require_table | intros _].
    apply invariant_modify_working. intros c t. apply Hs. }
  assert (Hrows : forall rows,
             invariant (on_tables P) (for_each rows (insert_row n))).
  { intros rows. apply invariant_for_each. intros r.
    now apply invariant_insert_row. }
  split.
  - intros step data. apply invariant_bind; [exact Htr | intros _].
    unfold MarkovDatabase.save_batches. apply invariant_for_each. intros i.
    apply invariant_bind; [|intros _; now apply invariant_commit].
    unfold execute_batch.
    apply invariant_bind; [apply invariant_emit | intros _].
    apply invariant_bind; [apply invariant_require_table | intros _].
    apply Hrows.
  - intros data. apply invariant_bind; [exact Htr | intros _].
    apply invariant_bind; [|intros _; now apply invariant_commit].
    unfold copy_expert.
    apply invariant_bind; [apply invariant_emit | intros _].
    apply invariant_bind; [apply invariant_require_table | intros _].
    apply Hrows.
Qed.

(** A load that succeeds leaves the other tables of the connection's
    view as they were. *)
Lemma save_ok_elsewhere
    (save : nat -> dict (dict Z) -> M unit)
    (n : nat) (T : dict (dict Z)) (w w' : world) :
  save = MarkovDatabase.save_markov_frequencies
  \/ save = MarkovDatabase.save_markov_frequencies_bulk ->
  save n T w = (Ok tt, w') ->
  same_elsewhere n (working w) (working w').
Proof.
  intros Hsave Hrun.
  set (P := fun _ t : tables => same_elsewhere n (working w) t).
  destruct (invariant_load_bodies P n) as [Hbatched Hbulk].
  { unfold P. intros c t rows. apply same_elsewhere_set_markov. }
  { unfold P. auto. }
  assert (H0 : on_tables P w) by (unfold on_tables, P; now split).
  destruct Hsave; subst save.
  - unfold MarkovDatabase.save_markov_frequencies, try_except in Hrun.
    cbv zeta in Hrun.
    destruct ((truncate_markov n ;;
               MarkovDatabase.save_batches n MarkovDatabase.batch_size
                 (MarkovDatabase.rows_of T)) w) as [[[]|e] w1] eqn:E.
    + inversion Hrun; subst. exact (Hbatched _ _ _ _ _ H0 E).
    + unfold bind in Hrun. rewrite rollback_run in Hrun. discriminate Hrun.
  - unfold MarkovDatabase.save_markov_frequencies_bulk, try_except in Hrun.
    cbv zeta in Hrun.
    destruct ((truncate_markov n ;;
               copy_expert n (MarkovDatabase.rows_of T) ;; commit) w)
      as [[[]|e] w1] eqn:E.
    + inversion Hrun; subst. exact (Hbulk _ _ _ _ H0 E).
    + unfold bind in Hrun. rewrite rollback_run in Hrun. discriminate Hrun.
Qed.

Lemma save_overall_frequencies_ok (frequencies : dict Z) (w : world) :
  NoDup (keys frequencies) -> faults w = None ->
  exists w1,
    OverallTable.save_overall_frequencies frequencies w = (Ok tt, w1)
    /\ faults w1 = None
    /\ overall_frequencies (working w1) = frequencies.
Proof.
  intros Hu Hf.
  set (w0 := mkWorld (committed w) (set_overall [] (working w)) (faults w)
               (rng w) (drawn w) (trace w ++ [SqlTruncate overall_tbl])).
  assert (H0 : truncate_overall w = (Ok tt, w0)).
  { unfold truncate_overall, bind, emit.
    rewrite storage_action_healthy by exact Hf. reflexivity. }
  destruct (insert_overall_rows_ok frequencies
              (log [SqlInsert overall_tbl (length frequencies)] w0) Hf)
    as [w1 [H1 [Hf1 Hm1]]]; [exact Hu|].
  destruct (commit_ok w1 Hf1) as [w2 [H2 [Hf2 Hw2]]].
  exists w2. split; [|split; [exact Hf2|]].
  - unfold OverallTable.save_overall_frequencies, try_except, bind.
    rewrite H0. cbv zeta. rewrite map_items.
    unfold execute_batch_overall, bind, emit. rewrite H1, H2. reflexivity.
  - rewrite Hw2, Hm1. reflexivity.
Qed.

Lemma count_overall_frequencies_keys (text : str) :
  NoDup (keys (count_overall_frequencies text)).
Proof.
  unfold count_overall_frequencies.
  assert (H0 : NoDup (keys (@nil (str * Z)))) by constructor.
  revert H0. generalize (@nil (str * Z)).
  induction text as [|c text IH]; intros acc Hacc; simpl fold_left.
  - exact Hacc.
  - apply IH. destruct (allowed c); [|exact Hacc].
    unfold incr. now apply keys_set_unique.
Qed.

Section TrainingLoop.
Variable lower : str -> str.
Variable text : str.
Variable use_bulk_insert : bool.

Lemma save_order_ok (n : nat) (w : world) :
  1 <= n <= 13 -> faults w = None ->
  exists w',
    save_order (normalize_text lower text) use_bulk_insert n w = (Ok tt, w')
    /\ faults w' = None
    /\ markov (working w') n
       = MarkovDatabase.rows_of
           (count_markov_frequencies (normalize_text lower text) n)
    /\ same_elsewhere n (working w) (working w').
Proof.
  intros Hn Hf.
  assert (Ht : table_exists n = true).
  { unfold table_exists. apply andb_true_iff. rewrite !Nat.leb_le. lia. }
  assert (Hwf : well_formed
                  (count_markov_frequencies (normalize_text lower text) n)).
  { destruct (count_markov_frequencies_ok (normalize_text lower text) n)
      as [Hk Hd].
    split; [exact Hk|]. unfold values. rewrite Forall_map.
    eapply Forall_impl; [|exact Hd]. intros p (_ & _ & Hu & _). exact Hu. }
  unfold save_order. cbv zeta.
  destruct (use_bulk_insert && (n <=? 5)).
  - destruct (save_markov_frequencies_bulk_ok n _ w Ht Hwf Hf)
      as [w' [H [Hf' Hm]]].
    exists w'. repeat (split; [assumption|]).
    exact (save_ok_elsewhere _ n _ w w' (or_intror eq_refl) H).
  - destruct (save_markov_frequencies_ok n _ w Ht Hwf Hf)
      as [w' [H [Hf' Hm]]].
    exists w'. repeat (split; [assumption|]).
    exact (save_ok_elsewhere _ n _ w w' (or_introl eq_refl) H).
Qed.

Lemma train_loop_ok (m : nat) :
  forall (a : nat) (w : world),
    1 <= a -> a + m <= 14 -> loaded_below (normalize_text lower text) a w ->
    exists w',
      for_each (seq a m)
               (save_order (normalize_text lower text) use_bulk_insert) w
      = (Ok tt, w')
      /\ loaded_below (normalize_text lower text) (a + m) w'.
Proof.
  induction m as [|m IH]; intros a w Ha Ham Hinv.
  - exists w. split; [reflexivity|]. now rewrite Nat.add_0_r.
  - destruct Hinv as [Hf [Ho Hm]].
    destruct (save_order_ok a w ltac:(lia) Hf)
      as [w1 [H1 [Hf1 [Hm1 [Ho1 He1]]]]].
    destruct (IH (S a) w1 ltac:(lia) ltac:(lia)) as [w2 [H2 Hinv2]].
    { split; [exact Hf1|]. split; [congruence|].
      intros n Hn. destruct (Nat.eq_dec n a) as [->|Hne].
      - exact Hm1.
      - rewrite He1 by exact Hne. apply Hm. lia. }
    exists w2. split.
    + simpl. now rewrite (bind_ok _ _ _ _ _ H1).
    + now replace (a + S m) with (S a + m) by lia.
Qed.

(** X17. Training end to end, on a working store and for a maximal
    order of at most 13: [train_from_file], from the text it has read,
    succeeds, and afterwards the lookup of any context of 1 to
    [max_order] characters returns the relative frequencies of its
    followers in the normalized text (empty when the context does not
    occur there followed by a character), and the overall lookup the
    relative frequencies of its characters, whether bulk loading was
    asked for or not. *)
Theorem train_then_lookup (max_order : nat) (w : world) :
  faults w = None -> max_order <= 13 ->
  exists w1,
    Training.train_from_text lower text max_order use_bulk_insert w
    = (Ok tt, w1)
    /\ (forall c, 1 <= length c <= max_order ->
        exists w2,
          MarkovModel.get_probabilities c w1
          = (Ok (relative_frequencies
                   (get_default c []
                      (count_markov_frequencies (normalize_text lower text)
                                                (length c)))),
             w2))
    /\ exists w2,
         MarkovDatabase.get_overall_probabilities w1
         = (Ok (relative_frequencies
                  (count_overall_frequencies (normalize_text lower text))),
            w2).
Proof.
  intros Hf Hmax.
  destruct (save_overall_frequencies_ok
              (count_overall_frequencies (normalize_text lower text)) w
              (count_overall_frequencies_keys (normalize_text lower text)) Hf)
    as [w0 [H0 [Hf0 Ho0]]].
  destruct (train_loop_ok max_order 1 w0 ltac:(lia) ltac:(lia))
    as [w1 [H1 [Hf1 [Ho1 Hm1]]]].
  { split; [exact Hf0|]. split; [exact Ho0|]. intros n Hn. lia. }
  exists w1. split; [|split].
  - unfold Training.train_from_text. cbv zeta.
    rewrite (bind_ok _ _ _ _ _ H0). exact H1.
  - intros c Hc.
    unfold MarkovModel.get_probabilities.
    assert ((length c =? 0) || (13 <? length c) = false) as ->.
    { apply orb_false_iff. rewrite Nat.eqb_neq, Nat.ltb_ge. lia. }
    apply query_after_load.
    + unfold table_exists. apply andb_true_iff. rewrite !Nat.leb_le. lia.
    + destruct (count_markov_frequencies_ok (normalize_text lower text) (length c))
        as [Hk Hd].
      split; [exact Hk|]. unfold values. rewrite Forall_map.
      eapply Forall_impl; [|exact Hd]. intros p (_ & _ & Hu & _). exact Hu.
    + exact Hf1.
    + apply Hm1. lia.
  - eexists. rewrite get_overall_probabilities_healthy by exact Hf1.
    f_equal. f_equal. unfold overall_probabilities. rewrite Ho1.
    apply probabilities_of_unique. apply count_overall_frequencies_keys.
Qed.
End TrainingLoop.

Lemma train_then_lookup_witness :
  faults (fresh_world 0) = None /\ 2 <= 13
  /\ exists w1,
       Training.train_from_text lower_basic mama 2 true (fresh_world 0)
       = (Ok tt, w1)
       /\ (forall c, 1 <= length c <= 2 ->
           exists w2,
             MarkovModel.get_probabilities c w1
             = (Ok (relative_frequencies
                      (get_default c []
                         (count_markov_frequencies
                            (normalize_text lower_basic mama) (length c)))),
                w2))
       /\ exists w2,
            MarkovDatabase.get_overall_probabilities w1
            = (Ok (relative_frequencies
                     (count_overall_frequencies
                        (normalize_text lower_basic mama))),
               w2).
Proof.
  assert (H : 2 <= 13) by lia.
  split; [reflexivity|]. split; [exact H|].
  exact (train_then_lookup lower_basic mama true 2 (fresh_world 0) eq_refl H).
Defined.
